(** * Trice ID management: allocator, format-count reconciler, cached cleaning

    A shallow embedding of [internal/id/manage.go] and
    [internal/id/cachedClean.go], followed by the properties of the ID
    allocator, of [AddFmtCount] and of [triceIDCleaning]. *)

From Stdlib Require Import ZArith Lia Ascii DecimalString.
From stdpp Require Import base gmap list strings.

Local Open Scope Z_scope.

(** * Part I: the program *)

(** ** Go's [int]: 64 bit, two's complement, silent wrap-around *)

Module GoInt.

Definition int_min : Z := - 2 ^ 63.
Definition int_max : Z := 2 ^ 63 - 1.

Definition is_int (z : Z) : Prop := int_min <= z <= int_max.

(** The value a 64-bit signed register holds after computing [z]. *)
Definition wrap (z : Z) : Z := (z + 2 ^ 63) mod 2 ^ 64 - 2 ^ 63.

End GoInt.

Import GoInt.

(** ** Data model *)

(** Modelled from the spec: the declaration of [TriceID] is outside the
    embedded files.  It is an integer type ("a non-negative integer within an
    inclusive range", section 3) that the code converts to and from [int]; it
    is taken as [int] itself. *)
Abbreviation TriceID := Z.

(** [Type] is a reserved word, hence [Type_]. *)
Record TriceFmt := { Type_ : string; Strg : string }.

#[global] Instance TriceFmt_eq_dec : EqDecision TriceFmt.
Proof. solve_decision. Defined.

(** [type TriceIDLookUp map[TriceID]TriceFmt] *)
Abbreviation TriceIDLookUp := (gmap TriceID TriceFmt).

(** [len(ilu)] *)
Definition len (ilu : TriceIDLookUp) : Z := Z.of_nat (size ilu).

(** The keys of the map, in the order stdpp lists them.  Go visits the keys
    of a map in an unspecified order: the functions below take the order of
    a [range] as an argument, and the theorems hold for every permutation of
    [keys]. *)
Definition keys (ilu : TriceIDLookUp) : list TriceID := (map_to_list ilu).*1.

(** ** The allocator: [newID], [newRandomID], [newUpwardID], [newDownwardID] *)

Module Allocator.

(** What the allocator writes: the line of [newID] in verbose mode, the
    messages of [msg.Info] and [msg.InfoOnTrue], and the line of the random
    search for an ID in use. *)
Inductive Event :=
| EvParams (min max : TriceID) (searchMethod : string)
| EvInfo (s : string)
| EvIDUsed (id : TriceID).

(** Modelled from the spec: the package [msg] is outside the embedded files.
    [msg.FatalInfoOnFalse(flag, info)] ends the process when [flag] is false
    ("a fatal error if |C| >= max-min+1", section 4.3), as [log.Fatal] does;
    [msg.InfoOnTrue(flag, info)] writes [info] when [flag] is true and
    [msg.Info(info)] writes it ("emit an info warning"). *)
Inductive FatalReason :=
| NoNewID (min max used : Z)
| NoIDSpace (min max : TriceID).

Inductive Outcome :=
| Ret (id : TriceID)
| Fatal (r : FatalReason).

(** The global source of [math/rand]: the raw values it will deliver and
    how many of them were consumed. *)
Record Rand := { src : nat -> Z; pos : nat }.

(** [rand.Intn(n)] for [0 < n]: some value of [[0,n)]. *)
Definition Intn (n : Z) (r : Rand) : Z * Rand :=
  (src r (pos r) mod n, {| src := src r; pos := S (pos r) |}).

Definition warning : string := "WARNING: Less than 12.5% IDs free!".

(** [interval := int(max - min + 1)] *)
Definition interval (min max : Z) : Z := wrap (wrap (max - min) + 1).

(** [for k := range ilu { if id == k { ... goto nextTry } }]: does the scan
    meet [id]? *)
Fixpoint range_hits (id : Z) (order : list Z) : bool :=
  match order with
  | [] => false
  | k :: order' => if id =? k then true else range_hits id order'
  end.

(** The retry loop of [newUpwardID]; [None] when the fuel runs out. *)
Fixpoint upward_loop (fuel : nat) (order : list Z) (id : Z) : option Z :=
  match fuel with
  | O => None
  | S fuel' =>
      if range_hits id order
      then upward_loop fuel' order (wrap (id + 1))
      else Some id
  end.

Definition newUpwardID (fuel : nat) (order : list Z) (ilu : TriceIDLookUp)
    (min max : Z) : option Outcome :=
  let interval := interval min max in
  let freeIDs := wrap (interval - len ilu) in
  if negb (0 <? freeIDs) then Some (Fatal (NoNewID min max (len ilu)))
  else
    let id := min in
    if len ilu =? 0 then Some (Ret id)
    else Ret <$> upward_loop fuel order id.

(** The retry loop of [newDownwardID]. *)
Fixpoint downward_loop (fuel : nat) (order : list Z) (id : Z) : option Z :=
  match fuel with
  | O => None
  | S fuel' =>
      if range_hits id order
      then downward_loop fuel' order (wrap (id - 1))
      else Some id
  end.

Definition newDownwardID (fuel : nat) (order : list Z) (ilu : TriceIDLookUp)
    (min max : Z) : option Outcome :=
  let interval := interval min max in
  let freeIDs := wrap (interval - len ilu) in
  if negb (0 <? freeIDs) then Some (Fatal (NoNewID min max (len ilu)))
  else
    let id := max in
    if len ilu =? 0 then Some (Ret id)
    else Ret <$> downward_loop fuel order id.

(** The retry loop of [newRandomID]: a used [id] is reported and drawn
    again. *)
Fixpoint random_loop (fuel : nat) (order : list Z) (min interval : Z)
    (rnd : Rand) (w : list Event) (id : Z) : option (Z * list Event * Rand) :=
  match fuel with
  | O => None
  | S fuel' =>
      if range_hits id order
      then
        let '(r, rnd') := Intn interval rnd in
        random_loop fuel' order min interval rnd' (w ++ [EvIDUsed id])
                    (wrap (min + r))
      else Some (id, w, rnd)
  end.

Definition newRandomID (fuel : nat) (order : list Z) (ilu : TriceIDLookUp)
    (rnd : Rand) (w : list Event) (min max : Z)
    : option (Outcome * list Event * Rand) :=
  let interval := interval min max in
  let freeIDs := wrap (interval - len ilu) in
  if negb (0 <? freeIDs) then Some (Fatal (NoNewID min max (len ilu)), w, rnd)
  else
    let wrnLimit := Z.shiftr interval 3 in
    let w := if freeIDs <? wrnLimit then w ++ [EvInfo warning] else w in
    if interval <=? 0 then Some (Fatal (NoIDSpace min max), w, rnd)
    else
      let '(r, rnd) := Intn interval rnd in
      let id := wrap (min + r) in
      if len ilu =? 0 then Some (Ret id, w, rnd)
      else
        '(id, w, rnd) ← random_loop fuel order min interval rnd w id;
        Some (Ret id, w, rnd).

(** [Verbose] is the global flag of the package. *)
Definition newID (Verbose : bool) (fuel : nat) (order : list Z)
    (ilu : TriceIDLookUp) (rnd : Rand) (min max : Z) (searchMethod : string)
    : option (Outcome * list Event * Rand) :=
  let w := if Verbose then [EvParams min max searchMethod] else [] in
  if String.eqb searchMethod "random" then
    newRandomID fuel order ilu rnd w min max
  else if String.eqb searchMethod "upward" then
    o ← newUpwardID fuel order ilu min max; Some (o, w, rnd)
  else if String.eqb searchMethod "downward" then
    o ← newDownwardID fuel order ilu min max; Some (o, w, rnd)
  else
    Some (Ret 0,
          w ++ [EvInfo ("ERROR:" +:+ searchMethod +:+ "is unknown ID search method.")],
          rnd).

(** Sample data: the catalog of the scenarios "dense upward" and "downward
    with gap", a catalog that fills eight of the nine IDs of [[1,9]], and two
    sources of random numbers. *)
Definition sampleFmt : TriceFmt := {| Type_ := "TRICE"; Strg := "x" |}.

Definition sample : TriceIDLookUp :=
  list_to_map [(100, sampleFmt); (101, sampleFmt); (103, sampleFmt)].

Definition crowded : TriceIDLookUp :=
  list_to_map ((fun k => (k, sampleFmt)) <$> [1; 2; 3; 4; 5; 6; 7; 8]).

Definition counting : Rand := {| src := Z.of_nat; pos := 0 |}.

Definition constant (z : Z) : Rand := {| src := fun _ => z; pos := 0 |}.

End Allocator.

(** ** The reconciler: [AddFmtCount] *)

Module Reconciler.

(** Go strings are byte strings, and so are Rocq's. *)

Fixpoint contains_byte (c : ascii) (s : string) : bool :=
  match s with
  | EmptyString => false
  | String a s' => if Ascii.eqb a c then true else contains_byte c s'
  end.

(** [strings.ContainsAny(s, chars)] for [chars] made of ASCII characters
    (an ASCII byte never occurs inside a multi-byte UTF-8 sequence). *)
Fixpoint ContainsAny (s chars : string) : bool :=
  match s with
  | EmptyString => false
  | String a s' => contains_byte a chars || ContainsAny s' chars
  end.

(** [len(s) >= len(prefix) && s[:len(prefix)] == prefix] *)
Definition HasPrefix (s prefix : string) : bool :=
  (String.length prefix <=? String.length s)%nat
  && String.eqb (String.substring 0 (String.length prefix) s) prefix.

(** [len(s) >= len(suffix) && s[len(s)-len(suffix):] == suffix] *)
Definition HasSuffix (s suffix : string) : bool :=
  (String.length suffix <=? String.length s)%nat
  && String.eqb (String.substring (String.length s - String.length suffix)
                           (String.length suffix) s) suffix.

(** [strings.Split(s, sep)] for a separator of one byte. *)
Fixpoint Split (s : string) (sep : ascii) : list string :=
  match s with
  | EmptyString => [EmptyString]
  | String a s' =>
      if Ascii.eqb a sep then EmptyString :: Split s' sep
      else match Split s' sep with
           | h :: t => String a h :: t
           | [] => [String a EmptyString]
           end
  end.

Definition digit (a : ascii) : option Z :=
  let n := Z.of_N (N_of_ascii a) in
  if (48 <=? n) && (n <=? 57) then Some (n - 48) else None.

Fixpoint digits (acc : Z) (s : string) : option Z :=
  match s with
  | EmptyString => Some acc
  | String a s' => d ← digit a; digits (10 * acc + d) s'
  end.

(** [strconv.Atoi(s)]: an optional sign and at least one decimal digit, the
    value within [int]; [None] stands for [err != nil]. *)
Definition Atoi (s : string) : option Z :=
  match s with
  | EmptyString => None
  | String a s' =>
      let '(neg, body) :=
        if Ascii.eqb a "+" then (false, s')
        else if Ascii.eqb a "-" then (true, s')
        else (false, s) in
      match body with
      | EmptyString => None
      | _ =>
          v ← digits 0 body;
          let v := if neg : bool then - v else v in
          if (int_min <=? v) && (v <=? int_max) then Some v else None
      end
  end.

(** [%d] of an [int]. *)
Definition itoa (n : Z) : string := NilZero.string_of_int (Z.to_int n).

(** [fmt.Sprintf(format, n)] with one [int] operand, for the formats whose
    directives are [%%] and [%d] only; [None] for a format with any other
    directive, which this model does not cover.  [arg] is the operand as long
    as no verb consumed it: a [%d] with no operand left prints
    [%!d(MISSING)], an operand left over at the end [%!(EXTRA int=n)]. *)
Fixpoint doPrintf (format : string) (arg : option Z) : option string :=
  match format with
  | EmptyString =>
      Some (match arg with
            | Some n => "%!(EXTRA int=" +:+ itoa n +:+ ")"
            | None => ""
            end)
  | String c rest =>
      if Ascii.eqb c "%" then
        match rest with
        | EmptyString => None
        | String verb rest' =>
            if Ascii.eqb verb "%" then String "%" <$> doPrintf rest' arg
            else if Ascii.eqb verb "d" then
              match arg with
              | Some n => String.app (itoa n) <$> doPrintf rest' None
              | None => String.app "%!d(MISSING)" <$> doPrintf rest' None
              end
            else None
        end
      else String c <$> doPrintf rest arg
  end.

(** The formats [doPrintf] covers. *)
Fixpoint inFragment (format : string) : bool :=
  match format with
  | EmptyString => true
  | String c rest =>
      if Ascii.eqb c "%" then
        match rest with
        | EmptyString => false
        | String verb rest' =>
            (Ascii.eqb verb "%" || Ascii.eqb verb "d") && inFragment rest'
        end
      else inFragment rest
  end.

Definition Sprintf (format : string) (n : Z) : option string :=
  doPrintf format (Some n).

(** What [AddFmtCount] writes to [w]. *)
Inductive Report :=
| InvalidCount (n : Z) (x : TriceFmt)
| ExpectedOne (x : TriceFmt) (n : Z)
| ExpectedZero (x : TriceFmt) (n : Z)
| UnexpectedType (x : TriceFmt).

Section AddFmtCount.

(** [formatSpecifierCount] is a function of the package outside the embedded
    files; [SAliasStrgPrefix] and [SAliasStrgSuffix] are global variables. *)
Variable formatSpecifierCount : string -> Z.
Variables SAliasStrgPrefix SAliasStrgSuffix : string.

(** One round of the loop body for the entry [x]: the lines written and the
    value stored back, if any.  [None] only where [Sprintf] is. *)
Definition AddFmtCount_body (x : TriceFmt)
    : option (list Report * option TriceFmt) :=
  let n := formatSpecifierCount (Strg x) in
  if negb ((0 <=? n) && (n <=? 12)) then Some ([InvalidCount n x], None)
  else if ContainsAny (Type_ x) "S" || ContainsAny (Type_ x) "N"
          || ContainsAny (Type_ x) "B" then
    if negb (n =? 1) then
      if HasPrefix (Strg x) SAliasStrgPrefix && HasSuffix (Strg x) SAliasStrgSuffix
      then Some ([], None)
      else Some ([ExpectedOne x n], None)
    else Some ([], None)
  else if ContainsAny (Type_ x) "F" then
    if negb (n =? 0) then Some ([ExpectedZero x n], None) else Some ([], None)
  else
    let s := Split (Type_ x) "_" in
    if (2 <? length s)%nat then Some ([UnexpectedType x], None)
    else if (length s =? 2)%nat then
      match Atoi (nth 1 s "") with
      | Some i =>
          if (i <? 0) || (12 <? i) then Some ([UnexpectedType x], None)
          else Some ([], None)
      | None => Some ([UnexpectedType x], None)
      end
    else if n =? 0 then Some ([], None)
    else
      t ← Sprintf (Type_ x +:+ "_%d") n;
      Some ([], Some {| Type_ := t; Strg := Strg x |}).

(** [for i, x := range ilu { ... ilu[i] = x }] over the keys in [order]: each
    round reads the entry from the map as it is then. *)
Fixpoint AddFmtCount_range (order : list Z) (w : list Report)
    (ilu : TriceIDLookUp) : option (list Report * TriceIDLookUp) :=
  match order with
  | [] => Some (w, ilu)
  | i :: order' =>
      match ilu !! i with
      | None => AddFmtCount_range order' w ilu
      | Some x =>
          '(r, y) ← AddFmtCount_body x;
          AddFmtCount_range order' (w ++ r)
            (match y with Some x' => <[i:=x']> ilu | None => ilu end)
      end
  end.

Definition AddFmtCount (order : list Z) (ilu : TriceIDLookUp)
    : option (list Report * TriceIDLookUp) :=
  AddFmtCount_range order [] ilu.

(** An entry the loop body leaves as it is. *)
Definition settled (x : TriceFmt) : Prop :=
  exists r, AddFmtCount_body x = Some (r, None).

(** The entry the map holds for [x] after the round on [x]. *)
Definition rewritten (x : TriceFmt) : option TriceFmt :=
  match AddFmtCount_body x with
  | Some (_, Some y) => Some y
  | Some (_, None) => Some x
  | None => None
  end.

End AddFmtCount.

(** A stand-in for [formatSpecifierCount], used to run [AddFmtCount] on
    examples: the number of [%] that start a directive, [%%] not counted. *)
Fixpoint countSpecifiers (s : string) : Z :=
  match s with
  | EmptyString => 0
  | String c rest =>
      if Ascii.eqb c "%" then
        match rest with
        | EmptyString => 1
        | String c' rest' =>
            if Ascii.eqb c' "%" then countSpecifiers rest'
            else 1 + countSpecifiers rest'
        end
      else countSpecifiers rest
  end.

(** Sample entries: the one of the scenario "reconciler rewrite", and one
    whose type holds a [%]. *)
Definition trice16 : TriceFmt := {| Type_ := "TRICE16"; Strg := "hi %03u, %5x" |}.

Definition percent : TriceFmt := {| Type_ := "TRICE%%"; Strg := "%d" |}.

End Reconciler.


(** ** The reverse index: [reverseS], [addID] *)

Module ReverseIndex.

(** [TriceFmt] is the key type of the reverse map: its equality is that of
    the two strings. *)
#[global] Instance TriceFmt_countable : Countable TriceFmt.
Proof.
  apply (inj_countable' (fun x => (Type_ x, Strg x))
                        (fun q => {| Type_ := q.1; Strg := q.2 |})).
  by intros [t g].
Defined.

(** [type triceFmtLookUp map[TriceFmt][]TriceID]: the declaration is outside
    the embedded files; [reverseS] makes the map and [addID] reads a slice of
    IDs from it and stores one. *)
Abbreviation triceFmtLookUp := (gmap TriceFmt (list TriceID)).

(** [idSlice := flu[tF]] is the empty slice for a missing key. *)
Definition addID (tF : TriceFmt) (id : TriceID) (flu : triceFmtLookUp)
    : triceFmtLookUp :=
  let idSlice := default [] (flu !! tF) in
  let idSlice := idSlice ++ [id] in
  <[tF := idSlice]> flu.

(** [for id, tF := range ilu { addID(tF, id, flu) }] over the keys in
    [order]. *)
Fixpoint reverseS_range (order : list TriceID) (ilu : TriceIDLookUp)
    (flu : triceFmtLookUp) : triceFmtLookUp :=
  match order with
  | [] => flu
  | id :: order' =>
      match ilu !! id with
      | Some tF => reverseS_range order' ilu (addID tF id flu)
      | None => reverseS_range order' ilu flu
      end
  end.

Definition reverseS (order : list TriceID) (ilu : TriceIDLookUp)
    : triceFmtLookUp :=
  reverseS_range order ilu ∅.

(** The IDs the reverse index holds for [tF]: [flu[tF]]. *)
Definition idsOf (flu : triceFmtLookUp) (tF : TriceFmt) : list TriceID :=
  default [] (flu !! tF).

(** The number of IDs in all the slices of the reverse index. *)
Definition idCount (flu : triceFmtLookUp) : nat :=
  map_fold (fun _ ids n => (length ids + n)%nat) 0%nat flu.

(** A catalog in which two IDs bear the same format. *)
Definition twice : TriceIDLookUp :=
  list_to_map [(10, {| Type_ := "TRICE"; Strg := "a" |});
               (11, {| Type_ := "TRICE8_1"; Strg := "b %d" |});
               (12, {| Type_ := "TRICE"; Strg := "a" |})].

End ReverseIndex.

(** ** Cached cleaning: [triceIDCleaning] *)

Module CachedClean.

(** A Go [error] value that is not [nil], as the lines of its message: one
    line for a plain error, the lines of all its parts after [errors.Join]. *)
Inductive Error := Err (lines : list string).

Definition lines (e : Error) : list string := let 'Err l := e in l.

(** The interface type [error]; [None] is [nil]. *)
Abbreviation error := (option Error).

(** [errors.Join(a, b)]: [nil] operands are dropped, [nil] when all are. *)
Definition errors_Join (a b : error) : error :=
  match a, b with
  | None, None => None
  | _, _ => Some (Err (from_option lines [] a ++ from_option lines [] b))
  end.

(** [os.FileInfo], of which the code reads [ModTime()] only; an instant is
    a number of nanoseconds and [time.Time.Equal] is their equality. *)
Record FileInfo := { ModTime : Z }.

Definition Time_Equal (t u : Z) : bool := t =? u.

(** The receiver [p *idData]: the accumulated error [p.err] and, as [data],
    everything else the run keeps (the catalog, the location index and the
    walk's bookkeeping), which only the transform touches. *)
Record idData (D : Type) := { err : error; data : D }.
Arguments err {D} _.
Arguments data {D} _.

(** The calls the function makes on its collaborators, in the order it makes
    them: lines on [w], filesystem updates and the transform. *)
Inductive Call :=
| CTell (s : string)
| CWarnNoCache (cache : string)
| COnErrFv (e : Error)
| CRemove (path : string)
| CMkdirAll (path : string)
| CCopy (dst src : string)
| CTransform (path : string).

(** The filesystem behind [fSys *afero.Afero], with state [FS]:
    [Stat] answers [Some] when its error is [nil]. *)
Record Afero (FS : Type) := {
  Stat : FS -> string -> option FileInfo;
  Remove : string -> FS -> FS * error;
  MkdirAll : string -> FS -> FS * error;
}.
Arguments Stat {FS} _ _ _.
Arguments Remove {FS} _ _ _.
Arguments MkdirAll {FS} _ _ _.

(** Global variables and constants of the package, and what the operating
    system answers: [runtime.GOOS], [os.UserHomeDir()] and the functions of
    [path/filepath]. *)
Record Env := {
  UserHomeDir : string;
  TriceCacheEnabled : bool;
  insertedCacheFolderName : string;
  cleanedCacheFolderName : string;
  GOOS : string;
  os_UserHomeDir : string * error;
  filepath_Join : list string -> string;
  filepath_Abs : string -> string * error;
  filepath_Dir : string -> string;
}.

(** Functions of the package outside the embedded files: the transform
    [p.processTriceIDCleaning], which reads and rewrites the file and the
    run's data and returns an error, [CopyFileWithMTime(fSys, dst, src)] and
    [fileExists(fSys, path)]. *)
Record Helpers (FS D : Type) := {
  processTriceIDCleaning :
    string -> FileInfo -> FS -> idData D -> FS * idData D * error;
  CopyFileWithMTime : string -> string -> FS -> FS * error;
  fileExists : FS -> string -> bool;
}.
Arguments processTriceIDCleaning {FS D} _ _ _ _ _.
Arguments CopyFileWithMTime {FS D} _ _ _ _.
Arguments fileExists {FS D} _ _ _.

(** The state a call works on. *)
Record State (FS D : Type) := {
  fs : FS;
  p : idData D;
  calls : list Call;
}.
Arguments fs {FS D} _.
Arguments p {FS D} _.
Arguments calls {FS D} _.
Arguments Build_State {FS D} _ _ _.

(** [strings.Cut(s, ":")] *)
Fixpoint Cut (s : string) (sep : ascii) : string * string * bool :=
  match s with
  | EmptyString => (EmptyString, EmptyString, false)
  | String a s' =>
      if Ascii.eqb a sep then (EmptyString, s', true)
      else let '(before, after, found) := Cut s' sep in
           (String a before, after, found)
  end.

Section Cleaning.

Context {FS D : Type}.
Variable E : Env.
Variable A : Afero FS.
Variable H : Helpers FS D.

Definition record (c : Call) (st : State FS D) : State FS D :=
  Build_State (fs st) (p st) (calls st ++ [c]).

(** Modelled from the spec: [p.join] is outside the embedded files; errors
    are "joined into an accumulator on the run state" (section 7), a [nil]
    error leaving it as it is. *)
Definition join (e : error) (st : State FS D) : State FS D :=
  match e with
  | None => st
  | Some _ =>
      Build_State (fs st)
        {| err := errors_Join (err (p st)) e; data := data (p st) |}
        (calls st)
  end.

(** Modelled from the spec: [msg.Tell] is outside the embedded files; it
    writes the line [s] to the progress sink [w]. *)
Definition Tell (s : string) (st : State FS D) : State FS D :=
  record (CTell s) st.

(** Modelled from the spec: [msg.OnErrFv] is outside the embedded files; the
    core "surfaces errors to the caller" (section 6): a non-nil error is
    reported on [w], and the error is returned as it is. *)
Definition OnErrFv (st : State FS D) : State FS D * error :=
  match err (p st) with
  | None => (st, None)
  | Some e => (record (COnErrFv e) st, Some e)
  end.

(** [fSys.Remove(path)], the error dropped as the code drops it. *)
Definition do_Remove (path : string) (st : State FS D) : State FS D :=
  let '(fs', _) := Remove A path (fs st) in
  Build_State fs' (p st) (calls st ++ [CRemove path]).

(** [err = fSys.MkdirAll(dir, 0o700); p.join(err)] *)
Definition do_MkdirAll (dir : string) (st : State FS D) : State FS D :=
  let '(fs', e) := MkdirAll A dir (fs st) in
  join e (Build_State fs' (p st) (calls st ++ [CMkdirAll dir])).

(** [err = CopyFileWithMTime(fSys, dst, src); p.join(err)] *)
Definition do_Copy (dst src : string) (st : State FS D) : State FS D :=
  let '(fs', e) := CopyFileWithMTime H dst src (fs st) in
  join e (Build_State fs' (p st) (calls st ++ [CCopy dst src])).

(** [err = p.processTriceIDCleaning(w, fSys, path, fileInfo, a); p.join(err)] *)
Definition do_Transform (path : string) (fileInfo : FileInfo)
    (st : State FS D) : State FS D :=
  let '(fs', p', e) := processTriceIDCleaning H path fileInfo (fs st) (p st) in
  join e (Build_State fs' p' (calls st ++ [CTransform path])).

(** [cache := filepath.Join(UserHomeDir, ".trice/cache")] *)
Definition cache : string := filepath_Join E [UserHomeDir E; ".trice/cache"].

(** The code from the label [clean:] to the end. *)
Definition clean (cacheExists : bool) (cleanedCachePath : string)
    (path : string) (fileInfo : FileInfo) (st : State FS D)
    : State FS D * error :=
  let st := do_Transform path fileInfo st in
  let st :=
    if TriceCacheEnabled E && cacheExists && bool_decide (err (p st) = None)
    then
      let st := Tell "Copy file into the cleaned-cache." st in
      let st := do_MkdirAll (filepath_Dir E cleanedCachePath) st in
      do_Copy cleanedCachePath path st
    else st in
  let st :=
    if TriceCacheEnabled E && negb cacheExists
    then record (CWarnNoCache cache) st else st in
  OnErrFv st.

(** Where the cache code before the label ends: with a [return], or at
    [clean:] with the values of [cacheExists] and [cleanedCachePath]. *)
Inductive Exit :=
| Return (r : State FS D * error)
| GotoClean (cacheExists : bool) (cleanedCachePath : string) (st : State FS D).

(** The decision on the two cache twins, from the [Stat] of
    [cleanedCachePath] on. *)
Definition twinCheck (insertedCachePath cleanedCachePath : string)
    (path : string) (fileInfo : FileInfo) (st : State FS D) : Exit :=
  match Stat A (fs st) cleanedCachePath with
  | None => GotoClean true cleanedCachePath (Tell "no cleaned Cache file" st)
  | Some cCache =>
      if Time_Equal (ModTime fileInfo) (ModTime cCache) then
        Return (OnErrFv (Tell "trice c was executed before, nothing to do" st))
      else
        match Stat A (fs st) insertedCachePath with
        | None =>
            GotoClean true cleanedCachePath (Tell "no inserted Cache file" st)
        | Some iCache =>
            if Time_Equal (ModTime fileInfo) (ModTime iCache)
               && fileExists H (fs st) cleanedCachePath
            then
              let st :=
                Tell "trice c was executed before, copy cCache into file" st in
              Return (OnErrFv (do_Copy path cleanedCachePath st))
            else
              let st := Tell "File was edited, invalidate cache" st in
              let st := do_Remove insertedCachePath st in
              let st := do_Remove cleanedCachePath st in
              GotoClean true cleanedCachePath st
        end
  end.

(** The code up to the label [clean:]. *)
Definition cacheCheck (path : string) (fileInfo : FileInfo) (st : State FS D)
    : Exit :=
  match err (p st) with
  | Some e => Return (st, Some e)
  | None =>
      if TriceCacheEnabled E then
        match Stat A (fs st) cache with
        | None => GotoClean false "" st
        | Some _ =>
            let '(fullPath, e) := filepath_Abs E path in
            let st := join e st in
            let '(before, after, found) := Cut fullPath ":" in
            let home :=
              if found && String.eqb (GOOS E) "windows"
                 && (String.length before =? 1)%nat
              then Some (os_UserHomeDir E) else None in
            match home with
            | Some (_, Some e) => Return (st, Some e)
            | _ =>
                let before :=
                  match home with
                  | Some (home, _) =>
                      if negb (String.eqb home (UserHomeDir E)) then ""
                      else before
                  | None => before
                  end in
                let fullPath := before +:+ after in
                let insertedCachePath :=
                  filepath_Join E [cache; insertedCacheFolderName E; fullPath] in
                let cleanedCachePath :=
                  filepath_Join E [cache; cleanedCacheFolderName E; fullPath] in
                twinCheck insertedCachePath cleanedCachePath path fileInfo st
            end
        end
      else GotoClean false "" st
  end.

Definition triceIDCleaning (path : string) (fileInfo : FileInfo)
    (st : State FS D) : State FS D * error :=
  match cacheCheck path fileInfo st with
  | Return r => r
  | GotoClean cacheExists cleanedCachePath st =>
      clean cacheExists cleanedCachePath path fileInfo st
  end.

(** Modelled from the spec: the walk over the source tree is outside the
    embedded files; "the engine processes files sequentially" (section 5),
    calling the action on each file with the same run state [p]. *)
Fixpoint cleanFiles (files : list (string * FileInfo)) (st : State FS D)
    : State FS D :=
  match files with
  | [] => st
  | (path, fileInfo) :: files' =>
      cleanFiles files' (triceIDCleaning path fileInfo st).1
  end.

(** The two cache twins of [path], [(insertedCachePath, cleanedCachePath)],
    when the absolute path and (where it is asked for) the home directory
    are found. *)
Definition cacheTwins (path : string) : option (string * string) :=
  match filepath_Abs E path with
  | (_, Some _) => None
  | (fullPath, None) =>
      let '(before, after, found) := Cut fullPath ":" in
      let canon (b : string) :=
        Some (filepath_Join E [cache; insertedCacheFolderName E; b +:+ after],
              filepath_Join E [cache; cleanedCacheFolderName E; b +:+ after]) in
      if found && String.eqb (GOOS E) "windows" && (String.length before =? 1)%nat
      then match os_UserHomeDir E with
           | (_, Some _) => None
           | (home, None) =>
               canon (if negb (String.eqb home (UserHomeDir E)) then "" else before)
           end
      else canon before
  end.

(** The two paths [(insertedCachePath, cleanedCachePath)] as the code
    computes them for [path], from whatever [filepath.Abs] returned, be it
    with an error; there are none when [os.UserHomeDir] is asked and fails. *)
Definition twinPaths (path : string) : option (string * string) :=
  let '(fullPath, _) := filepath_Abs E path in
  let '(before, after, found) := Cut fullPath ":" in
  let canon (b : string) :=
    Some (filepath_Join E [cache; insertedCacheFolderName E; b +:+ after],
          filepath_Join E [cache; cleanedCacheFolderName E; b +:+ after]) in
  if found && String.eqb (GOOS E) "windows" && (String.length before =? 1)%nat
  then match os_UserHomeDir E with
       | (_, Some _) => None
       | (home, None) =>
           canon (if negb (String.eqb home (UserHomeDir E)) then "" else before)
       end
  else canon before.

(** Modelled from the spec: [CopyFileWithMTime] is outside the embedded
    files; it is to "copy a file while preserving modification time"
    (component G): after a copy without error the destination has the
    modification time of the source. *)
Definition preservesMTime : Prop :=
  forall dst src f f',
    CopyFileWithMTime H dst src f = (f', None) ->
    ModTime <$> Stat A f' dst = ModTime <$> Stat A f src.

(** Modelled from the spec: a copy reads its source and writes its
    destination; after a copy without error the source is found as before. *)
Definition keepsSource : Prop :=
  forall dst src f f',
    CopyFileWithMTime H dst src f = (f', None) ->
    Stat A f' src = Stat A f src.

(** The calls that leave the filesystem and the run's data alone. *)
Definition silent (c : Call) : Prop :=
  match c with
  | CTell _ | CWarnNoCache _ | COnErrFv _ => True
  | _ => False
  end.

(** The call [OnErrFv] makes for the error [e]. *)
Definition reported (e : error) : list Call :=
  match e with
  | Some e => [COnErrFv e]
  | None => []
  end.

(** The three calls of the cache update after the transform. *)
Definition cacheUpdate (cln path : string) : list Call :=
  [CTell "Copy file into the cleaned-cache.";
   CMkdirAll (filepath_Dir E cln); CCopy cln path].

(** The calls other than [Remove]. *)
Definition notRemove (c : Call) : Prop :=
  match c with
  | CRemove _ => False
  | _ => True
  end.

End Cleaning.

End CachedClean.

(** ** An in-memory filesystem, to run [triceIDCleaning] on examples *)

Module MemFs.

Import CachedClean.

Record File := { content : string; mtime : Z }.

Abbreviation MemFS := (gmap string File).

Definition notExist (op path : string) : error :=
  Some (Err [op +:+ " " +:+ path +:+ ": file does not exist"]).

Definition memStat (f : MemFS) (path : string) : option FileInfo :=
  (fun x => {| ModTime := mtime x |}) <$> f !! path.

Definition memRemove (path : string) (f : MemFS) : MemFS * error :=
  match f !! path with
  | Some _ => (delete path f, None)
  | None => (f, notExist "remove" path)
  end.

Definition memMkdirAll (path : string) (f : MemFS) : MemFS * error :=
  (match f !! path with
   | Some _ => f
   | None => <[path := {| content := ""; mtime := 0 |}]> f
   end, None).

Definition memAfero : Afero MemFS :=
  {| Stat := memStat; Remove := memRemove; MkdirAll := memMkdirAll |}.

Definition memCopy (dst src : string) (f : MemFS) : MemFS * error :=
  match f !! src with
  | Some x => (<[dst := x]> f, None)
  | None => (f, notExist "open" src)
  end.

(** A transform that fails on the files of [broken] and rewrites the
    others. *)
Definition memProcess (broken : list string) (path : string) (_ : FileInfo)
    (f : MemFS) (q : idData TriceIDLookUp)
    : MemFS * idData TriceIDLookUp * error :=
  if bool_decide (path ∈ broken) then (f, q, Some (Err ["clean " +:+ path]))
  else (alter (fun x => {| content := "cleaned"; mtime := mtime x + 1 |}) path f,
        q, None).

Definition memHelpers (broken : list string) : Helpers MemFS TriceIDLookUp :=
  {| processTriceIDCleaning := memProcess broken;
     CopyFileWithMTime := memCopy;
     fileExists := fun f path => bool_decide (is_Some (f !! path)) |}.

Definition trimSlash (s : string) : string :=
  match s with
  | String c s' => if Ascii.eqb c "/" then s' else s
  | EmptyString => s
  end.

Definition memJoin (parts : list string) : string :=
  match parts with
  | [] => ""
  | part :: parts' => String.concat "/" (part :: (trimSlash <$> parts'))
  end.

Definition memDir (path : string) : string :=
  String.concat "/" (removelast (Reconciler.Split path "/")).

Definition memEnv : Env :=
  {| UserHomeDir := "/home/u";
     TriceCacheEnabled := true;
     insertedCacheFolderName := "inserted";
     cleanedCacheFolderName := "cleaned";
     GOOS := "linux";
     os_UserHomeDir := ("/home/u", None);
     filepath_Join := memJoin;
     filepath_Abs := fun path => (path, None);
     filepath_Dir := memDir |}.

Definition dir : File := {| content := ""; mtime := 0 |}.

(** [/src/a.c] and [/src/b.c], last written at instant 9, and an empty
    cache. *)
Definition tree : MemFS :=
  list_to_map [("/home/u/.trice/cache", dir);
               ("/src/a.c", {| content := "a"; mtime := 9 |});
               ("/src/b.c", {| content := "b"; mtime := 9 |})].

(** The same with the two cache twins of [/src/a.c], written at instant
    7: the file was edited since. *)
Definition edited : MemFS :=
  <["/home/u/.trice/cache/inserted/src/a.c" := {| content := "i"; mtime := 7 |}]>
  (<["/home/u/.trice/cache/cleaned/src/a.c" := {| content := "c"; mtime := 7 |}]>
   tree).

(** The same with a cleaned twin of [/src/a.c] as old as the file. *)
Definition cleaned : MemFS :=
  <["/home/u/.trice/cache/cleaned/src/a.c" := {| content := "a"; mtime := 9 |}]>
  tree.

(** A Windows machine on which the home directory is not to be found. *)
Definition winEnv : Env :=
  {| UserHomeDir := "c:/home/u";
     TriceCacheEnabled := true;
     insertedCacheFolderName := "inserted";
     cleanedCacheFolderName := "cleaned";
     GOOS := "windows";
     os_UserHomeDir := ("", Some (Err ["%userprofile% is not defined"]));
     filepath_Join := memJoin;
     filepath_Abs := fun path => (path, None);
     filepath_Dir := memDir |}.

Definition winTree : MemFS :=
  list_to_map [("c:/home/u/.trice/cache", dir);
               ("c:/src/a.c", {| content := "a"; mtime := 9 |})].

(** The tree after an insertion: the cleaned twin of [/src/a.c] is older than
    the file, the inserted twin as old as the file. *)
Definition inserted : MemFS :=
  <["/home/u/.trice/cache/inserted/src/a.c" := {| content := "a"; mtime := 9 |}]>
  (<["/home/u/.trice/cache/cleaned/src/a.c" := {| content := "c"; mtime := 7 |}]>
   tree).

(** The same machine with the cache switched off. *)
Definition offEnv : Env :=
  {| UserHomeDir := "/home/u";
     TriceCacheEnabled := false;
     insertedCacheFolderName := "inserted";
     cleanedCacheFolderName := "cleaned";
     GOOS := "linux";
     os_UserHomeDir := ("/home/u", None);
     filepath_Join := memJoin;
     filepath_Abs := fun path => (path, None);
     filepath_Dir := memDir |}.

Definition start (f : MemFS) : State MemFS TriceIDLookUp :=
  Build_State f {| err := None; data := ∅ |} [].

Definition at9 : FileInfo := {| ModTime := 9 |}.

(** The state of a run in which an earlier file has failed. *)
Definition failed (f : MemFS) : State MemFS TriceIDLookUp :=
  Build_State f {| err := Some (Err ["clean /src/0.c"]); data := ∅ |} [].

End MemFs.

(** * Part II: the properties *)

(** ** Facts on Go's [int] *)

Module GoIntFacts.

Lemma wrap_id z : is_int z -> wrap z = z.
Proof.
  unfold is_int, int_min, int_max, wrap. intros Hz.
  rewrite Z.mod_small by lia. lia.
Qed.

Lemma wrap_is_int z : is_int (wrap z).
Proof.
  unfold is_int, int_min, int_max, wrap.
  pose proof (Z.mod_pos_bound (z + 2 ^ 63) (2 ^ 64)). lia.
Qed.

(** Above the range by less than [2^64], the register holds the value
    shifted down by [2^64]. *)
Lemma wrap_over z : int_max < z <= int_max + 2 ^ 64 -> wrap z = z - 2 ^ 64.
Proof.
  unfold int_max, wrap. intros Hz.
  replace (z + 2 ^ 63) with ((z - 2 ^ 63) + 1 * 2 ^ 64) by lia.
  rewrite Z.mod_add by lia. rewrite Z.mod_small by lia. lia.
Qed.

End GoIntFacts.

(** ** The allocator *)

Module AllocatorSpec.

Import GoIntFacts Allocator.

(** [interval] is [max - min + 1] as Go computes it.  For bounds [min <= max]
    that are [int]s it is positive exactly when [max - min + 1] fits an
    [int], and then it is that number. *)
Lemma interval_exact m M :
  is_int m -> is_int M -> m <= M ->
  0 < interval m M <-> M - m + 1 <= int_max.
Proof.
  unfold interval. intros Hm HM Hle.
  destruct (Z_le_gt_dec (M - m) int_max) as [Hs|Hb].
  - rewrite (wrap_id (M - m)) by (unfold is_int, int_min, int_max in *; lia).
    destruct (Z_le_gt_dec (M - m + 1) int_max) as [Hs'|Hb'].
    + rewrite wrap_id by (unfold is_int, int_min, int_max in *; lia). lia.
    + rewrite wrap_over by (unfold is_int, int_min, int_max in *; lia).
      unfold is_int, int_min, int_max in *; lia.
  - rewrite (wrap_over (M - m)) by (unfold is_int, int_min, int_max in *; lia).
    rewrite wrap_id by (unfold is_int, int_min, int_max in *; lia).
    unfold is_int, int_min, int_max in *; lia.
Qed.

Lemma interval_value m M :
  is_int m -> is_int M -> m <= M -> 0 < interval m M ->
  interval m M = M - m + 1.
Proof.
  intros Hm HM Hle Hpos.
  pose proof (proj1 (interval_exact m M Hm HM Hle) Hpos) as Hfit.
  unfold interval.
  rewrite (wrap_id (M - m)) by (unfold is_int, int_min, int_max in *; lia).
  apply wrap_id. unfold is_int, int_min, int_max in *; lia.
Qed.

Lemma len_nonneg (ilu : TriceIDLookUp) : 0 <= len ilu.
Proof. unfold len. lia. Qed.

(** The check [freeIDs > 0] passes. *)
Lemma freeIDs_pos (ilu : TriceIDLookUp) m M :
  is_int m -> is_int M -> m <= M -> len ilu < interval m M ->
  interval m M = M - m + 1 /\
  wrap (interval m M - len ilu) = M - m + 1 - len ilu /\
  negb (0 <? wrap (interval m M - len ilu)) = false.
Proof.
  intros Hm HM Hle Hfree. pose proof (len_nonneg ilu) as Hl.
  assert (Hpos : 0 < interval m M) by lia.
  pose proof (proj1 (interval_exact m M Hm HM Hle) Hpos) as Hfit.
  rewrite (interval_value m M Hm HM Hle Hpos) in *.
  assert (Hw : wrap (M - m + 1 - len ilu) = M - m + 1 - len ilu).
  { apply wrap_id. unfold is_int, int_min, int_max in *; lia. }
  rewrite Hw. split; [done|]. split; [done|].
  apply negb_false_iff, Z.ltb_lt. lia.
Qed.

(** *** Scanning the keys *)

Lemma range_hits_elem id order : range_hits id order = true <-> id ∈ order.
Proof.
  induction order as [|k order IH]; simpl.
  - split; [discriminate | intros Hin; inversion Hin].
  - rewrite elem_of_cons. destruct (Z.eqb_spec id k) as [->|Hne].
    + split; auto.
    + rewrite IH. split; [auto | intros [?|?]; [contradiction | done]].
Qed.

Lemma elem_of_keys (ilu : TriceIDLookUp) k : k ∈ keys ilu <-> is_Some (ilu !! k).
Proof.
  unfold keys. rewrite list_elem_of_fmap. split.
  - intros [[k' x] [-> Hin]]. apply elem_of_map_to_list in Hin. simpl. eauto.
  - intros [x Hx]. exists (k, x). split; [done|]. by apply elem_of_map_to_list.
Qed.

(** The scan does not depend on the order in which [range] delivers the
    keys. *)
Lemma range_hits_used (ilu : TriceIDLookUp) order id :
  order ≡ₚ keys ilu -> range_hits id order = true <-> is_Some (ilu !! id).
Proof. intros Hp. rewrite range_hits_elem, Hp. apply elem_of_keys. Qed.

Lemma range_hits_free (ilu : TriceIDLookUp) order id :
  order ≡ₚ keys ilu -> range_hits id order = false <-> ilu !! id = None.
Proof.
  intros Hp. rewrite <- not_true_iff_false, (range_hits_used ilu order id Hp).
  rewrite <- eq_None_not_Some. done.
Qed.

(** *** Counting: a run of used IDs is no longer than the catalog *)

Lemma used_run_le_size (ilu : TriceIDLookUp) a (n : nat) :
  (forall j, a <= j < a + Z.of_nat n -> is_Some (ilu !! j)) ->
  (n <= size ilu)%nat.
Proof.
  intros Hused.
  set (X := list_to_set (seqZ a (Z.of_nat n)) : gset Z).
  assert (HX : X ⊆ dom ilu).
  { intros j Hj. apply elem_of_list_to_set, elem_of_seqZ in Hj.
    apply elem_of_dom. apply Hused. lia. }
  apply subseteq_size in HX. rewrite size_dom in HX.
  unfold X in HX. rewrite size_list_to_set in HX by apply NoDup_seqZ.
  rewrite length_seqZ in HX. lia.
Qed.

(** Pigeonhole: a catalog smaller than the range leaves an ID of it free. *)
Lemma free_exists (ilu : TriceIDLookUp) m M :
  m <= M -> len ilu < M - m + 1 ->
  exists j, m <= j <= M /\ ilu !! j = None.
Proof.
  intros Hle Hfree.
  destruct (decide (Exists (fun j => ilu !! j = None) (seqZ m (M - m + 1))))
    as [Hex|Hno].
  - apply Exists_exists in Hex as [j [Hj Hf]].
    apply elem_of_seqZ in Hj. exists j. split; [lia | done].
  - exfalso.
    assert (Hall : forall j, m <= j < m + Z.of_nat (Z.to_nat (M - m + 1)) ->
                             is_Some (ilu !! j)).
    { intros j Hj. destruct (ilu !! j) eqn:Hl; [eauto|].
      exfalso. apply Hno, Exists_exists. exists j. split; [|done].
      apply elem_of_seqZ. lia. }
    apply used_run_le_size in Hall. unfold len in Hfree. lia.
Qed.

(** The least free ID at or above [a], when there is one within [n] steps. *)
Lemma least_free (ilu : TriceIDLookUp) (n : nat) : forall a,
  (exists j, a <= j < a + Z.of_nat n /\ ilu !! j = None) ->
  exists k, a <= k < a + Z.of_nat n /\ ilu !! k = None /\
            forall j, a <= j < k -> is_Some (ilu !! j).
Proof.
  induction n as [|n IH]; intros a [j [Hj Hf]]; [lia|].
  destruct (ilu !! a) as [x|] eqn:Ha.
  - destruct (IH (a + 1)) as [k [Hk [Hkf Hbelow]]].
    { exists j. split; [|done]. assert (j <> a) by congruence. lia. }
    exists k. split; [lia|]. split; [done|].
    intros i Hi. destruct (decide (i = a)) as [->|Hne]; [eauto|].
    apply Hbelow. lia.
  - exists a. split; [lia|]. split; [done|]. intros i Hi. lia.
Qed.

(** The greatest free ID at or below [b], when there is one within [n]
    steps. *)
Lemma greatest_free (ilu : TriceIDLookUp) (n : nat) : forall b,
  (exists j, b - Z.of_nat n < j <= b /\ ilu !! j = None) ->
  exists k, b - Z.of_nat n < k <= b /\ ilu !! k = None /\
            forall j, k < j <= b -> is_Some (ilu !! j).
Proof.
  induction n as [|n IH]; intros b [j [Hj Hf]]; [lia|].
  destruct (ilu !! b) as [x|] eqn:Hb.
  - destruct (IH (b - 1)) as [k [Hk [Hkf Habove]]].
    { exists j. split; [|done]. assert (j <> b) by congruence. lia. }
    exists k. split; [lia|]. split; [done|].
    intros i Hi. destruct (decide (i = b)) as [->|Hne]; [eauto|].
    apply Habove. lia.
  - exists b. split; [lia|]. split; [done|]. intros i Hi. lia.
Qed.

(** *** The retry loops *)

Lemma upward_loop_spec (ilu : TriceIDLookUp) order :
  order ≡ₚ keys ilu ->
  forall fuel id k,
    int_min <= id -> id <= k -> k <= int_max ->
    ilu !! k = None ->
    (forall j, id <= j < k -> is_Some (ilu !! j)) ->
    (Z.to_nat (k - id) < fuel)%nat ->
    upward_loop fuel order id = Some k.
Proof.
  intros Hp. induction fuel as [|fuel IH]; intros id k Hlo Hle Hhi Hfree Hused Hfuel;
    [lia|].
  simpl. destruct (range_hits id order) eqn:Hhit.
  - apply (range_hits_used ilu order id Hp) in Hhit.
    assert (id <> k) by (intros ->; rewrite Hfree in Hhit; by destruct Hhit).
    rewrite wrap_id by (unfold is_int; lia).
    apply IH; try lia; [done|]. intros j Hj. apply Hused. lia.
  - apply (range_hits_free ilu order id Hp) in Hhit.
    destruct (decide (id = k)) as [->|Hne]; [done|].
    destruct (Hused id) as [x Hx]; [lia|]. congruence.
Qed.

Lemma downward_loop_spec (ilu : TriceIDLookUp) order :
  order ≡ₚ keys ilu ->
  forall fuel id k,
    int_min <= k -> k <= id -> id <= int_max ->
    ilu !! k = None ->
    (forall j, k < j <= id -> is_Some (ilu !! j)) ->
    (Z.to_nat (id - k) < fuel)%nat ->
    downward_loop fuel order id = Some k.
Proof.
  intros Hp. induction fuel as [|fuel IH]; intros id k Hlo Hle Hhi Hfree Hused Hfuel;
    [lia|].
  simpl. destruct (range_hits id order) eqn:Hhit.
  - apply (range_hits_used ilu order id Hp) in Hhit.
    assert (id <> k) by (intros ->; rewrite Hfree in Hhit; by destruct Hhit).
    rewrite wrap_id by (unfold is_int; lia).
    apply IH; try lia; [done|]. intros j Hj. apply Hused. lia.
  - apply (range_hits_free ilu order id Hp) in Hhit.
    destruct (decide (id = k)) as [->|Hne]; [done|].
    destruct (Hused id) as [x Hx]; [lia|]. congruence.
Qed.

Lemma random_loop_returns (ilu : TriceIDLookUp) order m M :
  order ≡ₚ keys ilu -> is_int m -> is_int M -> m <= M ->
  forall I, I = M - m + 1 ->
  forall (n : nat) fuel rnd w id,
    (n < fuel)%nat -> m <= id <= M ->
    match n with
    | O => ilu !! id = None
    | S n' => ilu !! (m + src rnd (pos rnd + n') mod I) = None
    end ->
    exists id' w' rnd',
      random_loop fuel order m I rnd w id = Some (id', w', rnd') /\
      ilu !! id' = None /\ m <= id' <= M /\
      (EvInfo warning ∈ w' <-> EvInfo warning ∈ w).
Proof.
  intros Hp Hm HM Hle I HI.
  induction n as [|n IH]; intros fuel rnd w id Hfuel Hid Hfree;
    (destruct fuel as [|fuel]; [lia|]); simpl.
  - rewrite (proj2 (range_hits_free ilu order id Hp) Hfree).
    exists id, w, rnd. repeat split; (done || lia).
  - destruct (range_hits id order) eqn:Hhit.
    + assert (Hr : 0 <= src rnd (pos rnd) mod I < I) by (apply Z.mod_pos_bound; lia).
      rewrite (wrap_id (m + _)) by (unfold is_int in *; lia).
      destruct (IH fuel {| src := src rnd; pos := S (pos rnd) |}
                   (w ++ [EvIDUsed id]) (m + src rnd (pos rnd) mod I))
        as (id' & w' & rnd' & Heq & Hf & Hrange & Hw); [lia | lia | |].
      { destruct n as [|n']; simpl.
        - by rewrite Nat.add_0_r in Hfree.
        - by rewrite Nat.add_succ_r in Hfree. }
      exists id', w', rnd'. repeat split; try done; try lia.
      * intros Hin. apply Hw, elem_of_app in Hin as [?|Hin]; [done|].
        apply list_elem_of_singleton in Hin. discriminate.
      * intros Hin. apply Hw, elem_of_app. by left.
    + apply (range_hits_free ilu order id Hp) in Hhit.
      exists id, w, rnd. repeat split; (done || lia).
Qed.

(** The least and the greatest free ID of a range that the catalog does not
    fill, and how far they are from the ends of the range. *)
Lemma least_free_in_range (ilu : TriceIDLookUp) m M :
  m <= M -> len ilu < M - m + 1 ->
  exists k, m <= k <= M /\ ilu !! k = None /\
            (forall j, m <= j < k -> is_Some (ilu !! j)) /\
            (Z.to_nat (k - m) <= size ilu)%nat.
Proof.
  intros Hle Hfree.
  destruct (free_exists ilu m M Hle Hfree) as [j [Hj Hjf]].
  destruct (least_free ilu (Z.to_nat (M - m + 1)) m) as (k & Hk & Hkf & Hbelow).
  { exists j. split; [lia | done]. }
  exists k. split; [lia|]. split; [done|]. split; [done|].
  apply (used_run_le_size ilu m). intros i Hi. apply Hbelow. lia.
Qed.

Lemma greatest_free_in_range (ilu : TriceIDLookUp) m M :
  m <= M -> len ilu < M - m + 1 ->
  exists k, m <= k <= M /\ ilu !! k = None /\
            (forall j, k < j <= M -> is_Some (ilu !! j)) /\
            (Z.to_nat (M - k) <= size ilu)%nat.
Proof.
  intros Hle Hfree.
  destruct (free_exists ilu m M Hle Hfree) as [j [Hj Hjf]].
  destruct (greatest_free ilu (Z.to_nat (M - m + 1)) M) as (k & Hk & Hkf & Habove).
  { exists j. split; [lia | done]. }
  exists k. split; [lia|]. split; [done|]. split; [done|].
  apply (used_run_le_size ilu (k + 1)). intros i Hi. apply Habove. lia.
Qed.

(** The empty catalog has no key. *)
Lemma len_0_empty (ilu : TriceIDLookUp) : len ilu = 0 -> ilu = ∅.
Proof. unfold len. intros H0. apply map_size_empty_inv. lia. Qed.

(** [newUpwardID] and [newDownwardID] return a free ID of the range. *)
Lemma newUpwardID_fresh (ilu : TriceIDLookUp) order m M fuel :
  order ≡ₚ keys ilu -> is_int m -> is_int M -> m <= M ->
  len ilu < interval m M -> (size ilu < fuel)%nat ->
  exists k, newUpwardID fuel order ilu m M = Some (Ret k) /\
            m <= k <= M /\ ilu !! k = None.
Proof.
  intros Hp Hm HM Hle Hfree Hfuel.
  destruct (freeIDs_pos ilu m M Hm HM Hle Hfree) as (HI & _ & Hchk).
  unfold newUpwardID. rewrite Hchk. rewrite HI in Hfree.
  destruct (least_free_in_range ilu m M Hle Hfree) as (k & Hk & Hkf & Hbelow & Hrun).
  exists k. split; [|done].
  destruct (Z.eqb_spec (len ilu) 0) as [H0|Hn0].
  - apply len_0_empty in H0. subst ilu. rewrite map_size_empty in Hrun.
    do 2 f_equal. lia.
  - rewrite (upward_loop_spec ilu order Hp fuel m k);
      unfold is_int in *; first [done | lia].
Qed.

Lemma newDownwardID_fresh (ilu : TriceIDLookUp) order m M fuel :
  order ≡ₚ keys ilu -> is_int m -> is_int M -> m <= M ->
  len ilu < interval m M -> (size ilu < fuel)%nat ->
  exists k, newDownwardID fuel order ilu m M = Some (Ret k) /\
            m <= k <= M /\ ilu !! k = None.
Proof.
  intros Hp Hm HM Hle Hfree Hfuel.
  destruct (freeIDs_pos ilu m M Hm HM Hle Hfree) as (HI & _ & Hchk).
  unfold newDownwardID. rewrite Hchk. rewrite HI in Hfree.
  destruct (greatest_free_in_range ilu m M Hle Hfree)
    as (k & Hk & Hkf & Habove & Hrun).
  exists k. split; [|done].
  destruct (Z.eqb_spec (len ilu) 0) as [H0|Hn0].
  - apply len_0_empty in H0. subst ilu. rewrite map_size_empty in Hrun.
    do 2 f_equal. lia.
  - rewrite (downward_loop_spec ilu order Hp fuel M k);
      unfold is_int in *; first [done | lia].
Qed.

(** [newRandomID] returns a free ID of the range as soon as the source of
    random numbers delivers one, and warns when fewer than [interval >> 3]
    IDs are free. *)
Lemma newRandomID_returns (ilu : TriceIDLookUp) order rnd w0 m M (n : nat) fuel :
  order ≡ₚ keys ilu -> is_int m -> is_int M -> m <= M ->
  len ilu < interval m M ->
  ilu !! (m + src rnd (pos rnd + n) mod interval m M) = None ->
  (n < fuel)%nat ->
  EvInfo warning ∉ w0 ->
  exists id w rnd',
    newRandomID fuel order ilu rnd w0 m M = Some (Ret id, w, rnd') /\
    ilu !! id = None /\ m <= id <= M /\
    (EvInfo warning ∈ w <-> M - m + 1 - len ilu < (M - m + 1) / 8).
Proof.
  intros Hp Hm HM Hle Hfree Hfair Hfuel Hw0.
  destruct (freeIDs_pos ilu m M Hm HM Hle Hfree) as (HI & Hfr & Hchk).
  unfold newRandomID. rewrite Hchk, Hfr. rewrite HI in *.
  pose proof (len_nonneg ilu) as Hl.
  destruct (Z.leb_spec (M - m + 1) 0) as [?|_]; [lia|].
  rewrite Z.shiftr_div_pow2 by lia. change (2 ^ 3) with 8.
  set (w1 := if M - m + 1 - len ilu <? (M - m + 1) / 8
             then w0 ++ [EvInfo warning] else w0).
  assert (Hw1 : EvInfo warning ∈ w1 <-> M - m + 1 - len ilu < (M - m + 1) / 8).
  { unfold w1. destruct (Z.ltb_spec (M - m + 1 - len ilu) ((M - m + 1) / 8)).
    - split; [done|]. intros _. apply elem_of_app. right. by left.
    - split; [intros Hin; contradiction | lia]. }
  unfold Intn.
  assert (Hr : 0 <= src rnd (pos rnd) mod (M - m + 1) < M - m + 1)
    by (apply Z.mod_pos_bound; lia).
  rewrite (wrap_id (m + _)) by (unfold is_int in *; lia).
  destruct (Z.eqb_spec (len ilu) 0) as [H0|Hn0].
  - exists (m + src rnd (pos rnd) mod (M - m + 1)), w1,
      {| src := src rnd; pos := S (pos rnd) |}.
    split; [done|].
    assert (ilu = ∅) as -> by (apply map_size_empty_inv; unfold len in H0; lia).
    split; [apply lookup_empty|]. split; [lia | done].
  - destruct (random_loop_returns ilu order m M Hp Hm HM Hle (M - m + 1) eq_refl
                n fuel {| src := src rnd; pos := S (pos rnd) |} w1
                (m + src rnd (pos rnd) mod (M - m + 1)))
      as (id' & w' & rnd' & Heq & Hf & Hrange & Hw); [done | lia | |].
    { destruct n as [|n']; simpl.
      - by rewrite Nat.add_0_r in Hfair.
      - by rewrite Nat.add_succ_r in Hfair. }
    rewrite Heq. simpl. exists id', w', rnd'.
    split; [done|]. split; [done|]. split; [done|]. by rewrite Hw.
Qed.

(** The three strategies of [newID] together: the call returns a free ID of
    the range, and its output holds the warning for [random] alone, when
    fewer than an eighth (rounded down) of the IDs are free. *)
Lemma newID_returns Verbose (ilu : TriceIDLookUp) order rnd m M s :
  order ≡ₚ keys ilu -> is_int m -> is_int M -> m <= M ->
  s ∈ ["random"; "upward"; "downward"] ->
  len ilu < interval m M ->
  (s = "random" ->
   exists n : nat, ilu !! (m + src rnd (pos rnd + n) mod interval m M) = None) ->
  exists fuel0 : nat, forall fuel, (fuel0 <= fuel)%nat ->
  exists id w rnd',
    newID Verbose fuel order ilu rnd m M s = Some (Ret id, w, rnd') /\
    ilu !! id = None /\ m <= id <= M /\
    (EvInfo warning ∈ w <->
     s = "random" /\ M - m + 1 - len ilu < (M - m + 1) / 8).
Proof.
  intros Hp Hm HM Hle Hs Hfree Hfair.
  assert (Hnw : forall a b c, EvInfo warning ∉
                  (if Verbose then [EvParams a b c] else [])).
  { intros a b c Hin. destruct Verbose.
    - apply list_elem_of_singleton in Hin. discriminate.
    - inversion Hin. }
  apply elem_of_cons in Hs as [->|Hs]; [|apply elem_of_cons in Hs as [->|Hs]].
  - destruct (Hfair eq_refl) as [n Hn]. exists (S n). intros fuel Hfuel.
    unfold newID. simpl.
    destruct (newRandomID_returns ilu order rnd
                (if Verbose then [EvParams m M "random"] else []) m M n fuel)
      as (id & w & rnd' & Heq & Hf & Hr & Hw);
      [first [done | lia | apply Hnw] .. |].
    exists id, w, rnd'. split; [done|]. split; [done|]. split; [done|].
    rewrite Hw. split; [by split | by intros [_ ?]].
  - exists (S (size ilu)). intros fuel Hfuel. unfold newID. simpl.
    destruct (newUpwardID_fresh ilu order m M fuel) as (k & Heq & Hr & Hf);
      [first [done | lia] .. |].
    rewrite Heq. simpl. exists k, (if Verbose then [EvParams m M "upward"] else []), rnd.
    split; [done|]. split; [done|]. split; [lia|].
    split; [intros Hin; by apply Hnw in Hin | intros [? _]; discriminate].
  - apply list_elem_of_singleton in Hs as ->.
    exists (S (size ilu)). intros fuel Hfuel. unfold newID. simpl.
    destruct (newDownwardID_fresh ilu order m M fuel) as (k & Heq & Hr & Hf);
      [first [done | lia] .. |].
    rewrite Heq. simpl. exists k, (if Verbose then [EvParams m M "downward"] else []), rnd.
    split; [done|]. split; [done|]. split; [lia|].
    split; [intros Hin; by apply Hnw in Hin | intros [? _]; discriminate].
Qed.

(** *** The claims on the allocator *)

(** C1 (allocator freshness).  For a catalog [ilu], bounds [m <= M] and a
    strategy among random, upward and downward, if [len ilu] is below the
    size of the range then [newID] returns an ID that is no key of [ilu] and
    lies in [[m,M]].  The size of the range is [interval m M], that is
    [M - m + 1] as the code computes it ([interval_exact]); the keys are
    visited in any order; for the random strategy the source of random
    numbers delivers, at some draw, a free ID (the loop redraws until then).
    With enough fuel for the retry loop the call returns. *)
Theorem newID_fresh Verbose (ilu : TriceIDLookUp) order rnd m M s :
  order ≡ₚ keys ilu -> is_int m -> is_int M -> m <= M ->
  s ∈ ["random"; "upward"; "downward"] ->
  len ilu < interval m M ->
  (s = "random" ->
   exists n : nat, ilu !! (m + src rnd (pos rnd + n) mod interval m M) = None) ->
  exists fuel0 : nat, forall fuel, (fuel0 <= fuel)%nat ->
  exists id w rnd',
    newID Verbose fuel order ilu rnd m M s = Some (Ret id, w, rnd') /\
    ilu !! id = None /\ m <= id <= M.
Proof.
  intros Hp Hm HM Hle Hs Hfree Hfair.
  destruct (newID_returns Verbose ilu order rnd m M s Hp Hm HM Hle Hs Hfree Hfair)
    as [fuel0 Hret].
  exists fuel0. intros fuel Hfuel.
  destruct (Hret fuel Hfuel) as (id & w & rnd' & Heq & Hf & Hr & _).
  by exists id, w, rnd'.
Qed.

Lemma newID_fresh_witness :
  exists fuel0 : nat, forall fuel, (fuel0 <= fuel)%nat ->
  exists id w rnd',
    newID true fuel (keys sample) sample counting 100 200 "random"
      = Some (Ret id, w, rnd') /\
    sample !! id = None /\ 100 <= id <= 200.
Proof.
  apply (newID_fresh true sample (keys sample) counting 100 200 "random").
  - reflexivity.
  - unfold is_int, int_min, int_max. lia.
  - unfold is_int, int_min, int_max. lia.
  - lia.
  - left.
  - vm_compute. reflexivity.
  - intros _. exists 2%nat. vm_compute. reflexivity.
Defined.

(** C2 (upward minimality).  For a catalog [ilu] and bounds [m <= M] with
    [len ilu] below the size of the range ([interval m M]: [M - m + 1] as
    the code computes it), [newUpwardID] returns the smallest [k] of [[m,M]]
    that is no key of [ilu]: [k] is free and every ID from [m] up to [k] is
    in use.  Fuel above the size of the catalog is enough. *)
Theorem newUpwardID_smallest_free (ilu : TriceIDLookUp) order m M fuel :
  order ≡ₚ keys ilu -> is_int m -> is_int M -> m <= M ->
  len ilu < interval m M -> (size ilu < fuel)%nat ->
  exists k, newUpwardID fuel order ilu m M = Some (Ret k) /\
            m <= k <= M /\ ilu !! k = None /\
            forall j, m <= j < k -> is_Some (ilu !! j).
Proof.
  intros Hp Hm HM Hle Hfree Hfuel.
  destruct (freeIDs_pos ilu m M Hm HM Hle Hfree) as (HI & _ & Hchk).
  unfold newUpwardID. rewrite Hchk. rewrite HI in Hfree.
  destruct (least_free_in_range ilu m M Hle Hfree) as (k & Hk & Hkf & Hbelow & Hrun).
  exists k. split; [|done].
  destruct (Z.eqb_spec (len ilu) 0) as [H0|Hn0].
  - (* the empty catalog: [min] itself is free *)
    apply len_0_empty in H0. subst ilu. rewrite map_size_empty in Hrun.
    do 2 f_equal. lia.
  - (* the loop climbs over the run of used IDs below [k] *)
    rewrite (upward_loop_spec ilu order Hp fuel m k);
      unfold is_int in *; first [done | lia].
Qed.

Lemma newUpwardID_smallest_free_witness :
  exists k, newUpwardID 4 (keys sample) sample 100 200 = Some (Ret k) /\
            100 <= k <= 200 /\ sample !! k = None /\
            forall j, 100 <= j < k -> is_Some (sample !! j).
Proof.
  apply (newUpwardID_smallest_free sample (keys sample) 100 200 4).
  - reflexivity.
  - unfold is_int, int_min, int_max. lia.
  - unfold is_int, int_min, int_max. lia.
  - lia.
  - vm_compute. reflexivity.
  - vm_compute. lia.
Defined.

(** C3 (downward maximality).  For a catalog [ilu] and bounds [m <= M] with
    [len ilu] below the size of the range ([interval m M]: [M - m + 1] as
    the code computes it), [newDownwardID] returns the largest [k] of
    [[m,M]] that is no key of [ilu]: [k] is free and every ID above [k] up to
    [M] is in use.  Fuel above the size of the catalog is enough. *)
Theorem newDownwardID_largest_free (ilu : TriceIDLookUp) order m M fuel :
  order ≡ₚ keys ilu -> is_int m -> is_int M -> m <= M ->
  len ilu < interval m M -> (size ilu < fuel)%nat ->
  exists k, newDownwardID fuel order ilu m M = Some (Ret k) /\
            m <= k <= M /\ ilu !! k = None /\
            forall j, k < j <= M -> is_Some (ilu !! j).
Proof.
  intros Hp Hm HM Hle Hfree Hfuel.
  destruct (freeIDs_pos ilu m M Hm HM Hle Hfree) as (HI & _ & Hchk).
  unfold newDownwardID. rewrite Hchk. rewrite HI in Hfree.
  destruct (greatest_free_in_range ilu m M Hle Hfree)
    as (k & Hk & Hkf & Habove & Hrun).
  exists k. split; [|done].
  destruct (Z.eqb_spec (len ilu) 0) as [H0|Hn0].
  - (* the empty catalog: [max] itself is free *)
    apply len_0_empty in H0. subst ilu. rewrite map_size_empty in Hrun.
    do 2 f_equal. lia.
  - (* the loop descends over the run of used IDs above [k] *)
    rewrite (downward_loop_spec ilu order Hp fuel M k);
      unfold is_int in *; first [done | lia].
Qed.

Lemma newDownwardID_largest_free_witness :
  exists k, newDownwardID 4 (keys sample) sample 100 103 = Some (Ret k) /\
            100 <= k <= 103 /\ sample !! k = None /\
            forall j, k < j <= 103 -> is_Some (sample !! j).
Proof.
  apply (newDownwardID_largest_free sample (keys sample) 100 103 4).
  - reflexivity.
  - unfold is_int, int_min, int_max. lia.
  - unfold is_int, int_min, int_max. lia.
  - lia.
  - vm_compute. reflexivity.
  - vm_compute. lia.
Defined.

(** The scenarios of the specification. *)
Example upward_empty : newUpwardID 1 [] ∅ 100 200 = Some (Ret 100).
Proof. reflexivity. Qed.

Example upward_dense : newUpwardID 4 (keys sample) sample 100 200 = Some (Ret 102).
Proof. vm_compute. reflexivity. Qed.

Example downward_gap : newDownwardID 4 (keys sample) sample 100 200 = Some (Ret 200).
Proof. vm_compute. reflexivity. Qed.

(** The range as wide as [int] itself: [interval] wraps around and the call
    is fatal on the empty catalog. *)
Example upward_widest :
  newUpwardID 1 [] ∅ 0 int_max = Some (Fatal (NoNewID 0 int_max 0)).
Proof. vm_compute. reflexivity. Qed.

(** C9, as stated, fails: with eight of the nine IDs of [[1,9]] in use, more
    than 87.5% of the range, neither the upward nor the downward strategy
    writes anything, and the random strategy, whose limit [9 >> 3] is [1]
    with one ID free, does not warn either. *)
Lemma newID_warning_counterexample :
  8 * len crowded > 7 * (9 - 1 + 1) /\
  newID false 9 (keys crowded) crowded counting 1 9 "upward"
    = Some (Ret 9, [], counting) /\
  newID false 9 (keys crowded) crowded counting 1 9 "downward"
    = Some (Ret 9, [], counting) /\
  newID false 9 (keys crowded) crowded (constant 8) 1 9 "random"
    = Some (Ret 9, [], {| src := fun _ => 8; pos := 1 |}) /\
  (EvInfo warning ∉ @nil Event).
Proof.
  split; [vm_compute; reflexivity|].
  split; [vm_compute; reflexivity|].
  split; [vm_compute; reflexivity|].
  split; [vm_compute; reflexivity|].
  intros Hin. inversion Hin.
Qed.

(** C9 (amended).  Only the random strategy warns, and it does so exactly
    when the number of free IDs, [M - m + 1 - len ilu], is below an eighth of
    the size of the range rounded down; the upward and the downward strategy
    never write the warning. *)
Theorem newID_warning Verbose (ilu : TriceIDLookUp) order rnd m M s :
  order ≡ₚ keys ilu -> is_int m -> is_int M -> m <= M ->
  s ∈ ["random"; "upward"; "downward"] ->
  len ilu < interval m M ->
  (s = "random" ->
   exists n : nat, ilu !! (m + src rnd (pos rnd + n) mod interval m M) = None) ->
  exists fuel0 : nat, forall fuel, (fuel0 <= fuel)%nat ->
  exists o w rnd',
    newID Verbose fuel order ilu rnd m M s = Some (o, w, rnd') /\
    (EvInfo warning ∈ w <->
     s = "random" /\ M - m + 1 - len ilu < (M - m + 1) / 8).
Proof.
  intros Hp Hm HM Hle Hs Hfree Hfair.
  destruct (newID_returns Verbose ilu order rnd m M s Hp Hm HM Hle Hs Hfree Hfair)
    as [fuel0 Hret].
  exists fuel0. intros fuel Hfuel.
  destruct (Hret fuel Hfuel) as (id & w & rnd' & Heq & _ & _ & Hw).
  by exists (Ret id), w, rnd'.
Qed.

Lemma newID_warning_witness :
  exists fuel0 : nat, forall fuel, (fuel0 <= fuel)%nat ->
  exists o w rnd',
    newID false fuel (keys crowded) crowded (constant 8) 1 9 "random"
      = Some (o, w, rnd') /\
    (EvInfo warning ∈ w <->
     "random" = "random" /\ 9 - 1 + 1 - len crowded < (9 - 1 + 1) / 8).
Proof.
  apply (newID_warning false crowded (keys crowded) (constant 8) 1 9 "random").
  - reflexivity.
  - unfold is_int, int_min, int_max. lia.
  - unfold is_int, int_min, int_max. lia.
  - lia.
  - left.
  - vm_compute. reflexivity.
  - intros _. exists 0%nat. vm_compute. reflexivity.
Defined.

(** The limit in terms of the catalog: fewer than an eighth (rounded down)
    of the IDs free means [len] at least 87.5% of the range plus one. *)
Lemma eighth_threshold I n :
  I - n < I / 8 <-> 8 * n >= 7 * I + 8.
Proof.
  pose proof (Z.div_mod I 8 ltac:(lia)). pose proof (Z.mod_pos_bound I 8 ltac:(lia)).
  lia.
Qed.

End AllocatorSpec.

(** ** The reconciler *)

Module ReconcilerSpec.

Import Reconciler.

(** *** Strings *)

(** Induction on strings two characters at a time, as [doPrintf] reads
    them. *)
Lemma string_ind2 (P : string -> Prop) :
  P "" ->
  (forall c, P (String c "")) ->
  (forall c d s, P s -> P (String d s) -> P (String c (String d s))) ->
  forall s, P s.
Proof.
  intros H0 H1 H2 s.
  assert (Hboth : P s /\ forall c, P (String c s)).
  { induction s as [|d s [IHs IHc]]; [by split|].
    split; [apply IHc|]. intros c. apply H2; [done | apply IHc]. }
  apply Hboth.
Qed.

Lemma contains_byte_app c s t :
  contains_byte c (s +:+ t) = contains_byte c s || contains_byte c t.
Proof.
  induction s as [|a s IH]; simpl; [done|].
  destruct (Ascii.eqb a c); [done | apply IH].
Qed.

(** [ContainsAny s chars] for a single character. *)
Lemma ContainsAny_byte s c :
  ContainsAny s (String c "") = contains_byte c s.
Proof.
  induction s as [|a s IH]; simpl; [done|].
  rewrite IH, Ascii.eqb_sym. by destruct (Ascii.eqb a c).
Qed.

Lemma Split_nonempty s sep : (1 <= length (Split s sep))%nat.
Proof.
  induction s as [|a s IH]; simpl; [lia|].
  destruct (Ascii.eqb a sep); simpl; [lia|].
  destruct (Split s sep); simpl; lia.
Qed.

(** A string with a separator splits in two parts at least. *)
Lemma Split_separator s sep :
  contains_byte sep s = true -> (2 <= length (Split s sep))%nat.
Proof.
  induction s as [|a s IH]; simpl; [discriminate|].
  destruct (Ascii.eqb a sep); simpl.
  - intros _. pose proof (Split_nonempty s sep). lia.
  - intros Hc. specialize (IH Hc). destruct (Split s sep); simpl in *; lia.
Qed.

(** A string without the separator is its own single part. *)
Lemma Split_whole s sep : contains_byte sep s = false -> Split s sep = [s].
Proof.
  induction s as [|a s IH]; simpl; [done|].
  destruct (Ascii.eqb a sep); [discriminate|].
  intros Hc. by rewrite (IH Hc).
Qed.

(** *** [Sprintf] *)

Lemma inFragment_defined format :
  inFragment format = true -> forall arg, is_Some (doPrintf format arg).
Proof.
  induction format as [|c|c d s IHs IHd] using string_ind2; simpl.
  - intros _ arg. eauto.
  - destruct (Ascii.eqb c "%"); [discriminate | intros _ arg; eauto].
  - destruct (Ascii.eqb c "%").
    + destruct (Ascii.eqb d "%"); simpl.
      * intros Hf arg. destruct (IHs Hf arg) as [t ->]. simpl. eauto.
      * destruct (Ascii.eqb d "d"); simpl; [|discriminate].
        intros Hf arg. destruct (IHs Hf None) as [t Ht].
        destruct arg; rewrite Ht; simpl; eauto.
    + intros Hf arg. destruct (IHd Hf arg) as [t Ht].
      simpl in Ht. rewrite Ht. simpl. eauto.
Qed.

(** Whatever precedes it in a covered format, the [_] that [AddFmtCount]
    appends is printed. *)
Lemma doPrintf_underscore f :
  forall arg t, doPrintf (f +:+ "_%d") arg = Some t -> contains_byte "_" t = true.
Proof.
  induction f as [|c|c d s IHs IHd] using string_ind2; intros arg t.
  - simpl. destruct arg; intros [= <-]; reflexivity.
  - simpl. destruct (Ascii.eqb c "%"); [discriminate|].
    destruct arg; intros [= <-]; simpl; by destruct (Ascii.eqb c "_").
  - change (String c (String d s) +:+ "_%d")
      with (String c (String d (s +:+ "_%d"))).
    simpl. destruct (Ascii.eqb c "%").
    + destruct (Ascii.eqb d "%").
      * intros (t' & Ht' & ->)%fmap_Some. simpl. by apply IHs in Ht'.
      * destruct (Ascii.eqb d "d"); [|discriminate].
        destruct arg; intros (t' & Ht' & ->)%fmap_Some;
          rewrite contains_byte_app, (IHs _ _ Ht'); apply orb_true_r.
    + intros (t' & Ht' & ->)%fmap_Some. simpl.
      destruct (Ascii.eqb c "_"); [done|]. by apply (IHd arg).
Qed.

(** A prefix without [%] is printed as it is. *)
Lemma doPrintf_plain s :
  contains_byte "%" s = false ->
  forall rest arg, doPrintf (s +:+ rest) arg = String.app s <$> doPrintf rest arg.
Proof.
  induction s as [|a s IH]; simpl; intros Hc rest arg.
  - change ("" +:+ rest) with rest. destruct (doPrintf rest arg); reflexivity.
  - destruct (Ascii.eqb a "%"); [discriminate|].
    rewrite (IH Hc). destruct (doPrintf rest arg); reflexivity.
Qed.

Lemma Sprintf_plain s n :
  contains_byte "%" s = false ->
  Sprintf (s +:+ "_%d") n = Some (s +:+ "_" +:+ itoa n).
Proof.
  intros Hc. unfold Sprintf. rewrite (doPrintf_plain s Hc). simpl.
  assert (Hnil : forall t, t +:+ "" = t).
  { induction t as [|a t IH]; [done|].
    change (String a t +:+ "") with (String a (t +:+ "")). by rewrite IH. }
  by rewrite Hnil.
Qed.

(** *** The loop body *)

Section Pass.

Variable formatSpecifierCount : string -> Z.
Variables SAliasStrgPrefix SAliasStrgSuffix : string.

#[local] Abbreviation body :=
  (AddFmtCount_body formatSpecifierCount SAliasStrgPrefix SAliasStrgSuffix).
#[local] Abbreviation pass :=
  (AddFmtCount_range formatSpecifierCount SAliasStrgPrefix SAliasStrgSuffix).
#[local] Abbreviation settled :=
  (settled formatSpecifierCount SAliasStrgPrefix SAliasStrgSuffix).
#[local] Abbreviation rewritten :=
  (rewritten formatSpecifierCount SAliasStrgPrefix SAliasStrgSuffix).

(** Only the last statement of the body stores an entry. *)
Lemma body_store x r y :
  body x = Some (r, Some y) ->
  exists t,
    Sprintf (Type_ x +:+ "_%d") (formatSpecifierCount (Strg x)) = Some t /\
    y = {| Type_ := t; Strg := Strg x |}.
Proof.
  unfold AddFmtCount_body.
  repeat (match goal with
          | |- context [if ?b then _ else _] => destruct b
          | |- context [match Atoi ?s with _ => _ end] => destruct (Atoi s)
          end; try discriminate).
  destruct (Sprintf _ _) as [t|]; simpl; [|discriminate].
  intros [= <- <-]. by exists t.
Qed.

(** A type with an underscore is never rewritten. *)
Lemma body_underscore x : contains_byte "_" (Type_ x) = true -> settled x.
Proof.
  intros Hu. apply Split_separator in Hu. unfold Reconciler.settled, AddFmtCount_body.
  destruct (negb _); [eauto|].
  destruct (_ || _ || _).
  { destruct (negb _); [destruct (_ && _)|]; eauto. }
  destruct (ContainsAny _ "F").
  { destruct (negb _); eauto. }
  destruct (Nat.ltb_spec 2 (length (Split (Type_ x) "_"))); [eauto|].
  destruct (Nat.eqb_spec (length (Split (Type_ x) "_")) 2); [|lia].
  destruct (Atoi _) as [i|]; [|eauto].
  destruct ((i <? 0) || (12 <? i)); eauto.
Qed.

(** What the body stores, it leaves alone the next time. *)
Lemma body_store_settled x r y : body x = Some (r, Some y) -> settled y.
Proof.
  intros (t & Ht & ->)%body_store. apply body_underscore. simpl.
  by apply doPrintf_underscore in Ht.
Qed.

Lemma settled_defined x : settled x -> is_Some (body x).
Proof. intros [r Hr]. eauto. Qed.

(** The body is defined on the types whose format [Sprintf] covers. *)
Lemma body_defined x :
  inFragment (Type_ x +:+ "_%d") = true -> is_Some (body x).
Proof.
  intros Hf. unfold AddFmtCount_body.
  repeat (match goal with
          | |- context [if ?b then _ else _] => destruct b
          | |- context [match Atoi ?s with _ => _ end] => destruct (Atoi s)
          end; eauto).
  destruct (inFragment_defined _ Hf (Some (formatSpecifierCount (Strg x))))
    as [t Ht].
  unfold Sprintf. rewrite Ht. simpl. eauto.
Qed.

Lemma rewritten_settled x y : rewritten x = Some y -> settled y.
Proof.
  unfold Reconciler.rewritten.
  destruct (body x) as [[r [y'|]]|] eqn:Hb; intros [= <-].
  - by apply body_store_settled in Hb.
  - by exists r.
Qed.

(** *** The loop *)

(** On a map of settled entries the loop changes nothing, in whatever order
    and however often it visits the keys. *)
Lemma pass_settled (ilu : TriceIDLookUp) :
  (forall i x, ilu !! i = Some x -> settled x) ->
  forall order w, exists w', pass order w ilu = Some (w', ilu).
Proof.
  intros Hs. induction order as [|i order IH]; intros w; simpl; [eauto|].
  destruct (ilu !! i) as [x|] eqn:Hi; [|apply IH].
  destruct (Hs i x Hi) as [r Hr]. rewrite Hr. simpl. apply IH.
Qed.

(** The loop runs to its end when the body is defined on every entry. *)
Lemma pass_defined order : forall w (ilu : TriceIDLookUp),
  (forall i x, ilu !! i = Some x -> is_Some (body x)) ->
  is_Some (pass order w ilu).
Proof.
  induction order as [|i order IH]; intros w ilu Hd; simpl; [eauto|].
  destruct (ilu !! i) as [x|] eqn:Hi; [|by apply IH].
  destruct (Hd i x Hi) as [[r [y|]] Hb]; rewrite Hb; simpl; [|by apply IH].
  apply IH. intros j z. rewrite lookup_insert. case_decide.
  - intros [= <-]. apply settled_defined. by apply body_store_settled in Hb.
  - apply Hd.
Qed.

(** Each key visited once: the map after the loop holds, for a visited key,
    what the body made of the entry, and the other entries as they were. *)
Lemma pass_lookup order : forall w (ilu : TriceIDLookUp) w' ilu',
  NoDup order ->
  pass order w ilu = Some (w', ilu') ->
  forall i, ilu' !! i =
            if decide (i ∈ order) then ilu !! i ≫= rewritten else ilu !! i.
Proof.
  induction order as [|k order IH]; intros w ilu w' ilu' Hnd Hpass i;
    simpl in Hpass.
  - injection Hpass as <- <-.
    destruct (decide (i ∈ [])) as [Hin|_]; [inversion Hin | done].
  - apply NoDup_cons in Hnd as [Hk Hnd].
    assert (Hother : i <> k ->
                     (if decide (i ∈ k :: order) then ilu !! i ≫= rewritten
                      else ilu !! i)
                     = (if decide (i ∈ order) then ilu !! i ≫= rewritten
                        else ilu !! i)).
    { intros Hne. destruct (decide (i ∈ order)) as [Hin|Hin].
      - by rewrite decide_True by (by right).
      - rewrite decide_False; [done|]. by intros [?|?]%elem_of_cons. }
    destruct (ilu !! k) as [x|] eqn:Hx.
    + destruct (body x) as [[r y]|] eqn:Hb; simpl in Hpass; [|discriminate].
      rewrite (IH _ _ _ _ Hnd Hpass i).
      destruct (decide (i = k)) as [->|Hne].
      * rewrite decide_False by done. rewrite decide_True by left.
        rewrite Hx. simpl. unfold Reconciler.rewritten. rewrite Hb.
        destruct y; [apply lookup_insert_eq | done].
      * rewrite (Hother Hne).
        assert (Hsame : match y with Some x' => <[k:=x']> ilu | None => ilu end
                        !! i = ilu !! i).
        { destruct y; [by apply lookup_insert_ne | done]. }
        by rewrite Hsame.
    + rewrite (IH _ _ _ _ Hnd Hpass i).
      destruct (decide (i = k)) as [->|Hne].
      * rewrite decide_False by done. rewrite decide_True by left.
        by rewrite Hx.
      * by rewrite (Hother Hne).
Qed.

Lemma keys_NoDup (ilu : TriceIDLookUp) order : order ≡ₚ keys ilu -> NoDup order.
Proof. intros ->. apply NoDup_fst_map_to_list. Qed.

Lemma keys_elem (ilu : TriceIDLookUp) order i x :
  order ≡ₚ keys ilu -> ilu !! i = Some x -> i ∈ order.
Proof.
  intros -> Hx. unfold keys. apply list_elem_of_fmap. exists (i, x).
  split; [done|]. by apply elem_of_map_to_list.
Qed.

(** After one loop over all the keys every entry is settled. *)
Lemma pass_all_settled order (ilu : TriceIDLookUp) w w' ilu' :
  order ≡ₚ keys ilu ->
  pass order w ilu = Some (w', ilu') ->
  forall i y, ilu' !! i = Some y -> settled y.
Proof.
  intros Hp Hpass i y.
  rewrite (pass_lookup order w ilu w' ilu' (keys_NoDup ilu order Hp) Hpass i).
  destruct (ilu !! i) as [x|] eqn:Hx.
  - rewrite decide_True by (by eapply keys_elem). simpl.
    apply rewritten_settled.
  - by case_decide.
Qed.

(** The loop body on a type that is a plain name: no underscore, no [%],
    none of the letters S, N, B, F.  Without specifiers the entry stays; with
    [n] of them, [1 <= n <= 12], the type gets the suffix [_n]. *)
Lemma body_plain x :
  ContainsAny (Type_ x) "S" = false -> ContainsAny (Type_ x) "N" = false ->
  ContainsAny (Type_ x) "B" = false -> ContainsAny (Type_ x) "F" = false ->
  ContainsAny (Type_ x) "_" = false -> ContainsAny (Type_ x) "%" = false ->
  let n := formatSpecifierCount (Strg x) in
  (n = 0 -> body x = Some ([], None)) /\
  (1 <= n <= 12 ->
   body x = Some ([], Some {| Type_ := Type_ x +:+ "_" +:+ itoa n;
                              Strg := Strg x |})).
Proof.
  intros HS HN HB HF Hu Hp n.
  rewrite ContainsAny_byte in Hu, Hp.
  assert (Hrange : 0 <= n <= 12 -> (0 <=? n) && (n <=? 12) = true).
  { intros ?. apply andb_true_iff. split; apply Z.leb_le; lia. }
  unfold AddFmtCount_body. fold n. rewrite HS, HN, HB, HF, (Split_whole _ _ Hu).
  simpl. split; intros Hn; rewrite Hrange by lia; simpl.
  - by rewrite Hn.
  - destruct (Z.eqb_spec n 0); [lia|].
    by rewrite (Sprintf_plain _ n Hp).
Qed.

End Pass.

(** The entry of a plain type after [AddFmtCount]: the key and the format
    string stay, the type gets the suffix [_n] when the format string has [n]
    specifiers, [1 <= n <= 12], and stays too when it has none. *)
Lemma AddFmtCount_plain_entry fsc pre suf (ilu : TriceIDLookUp) order w ilu' i x :
  order ≡ₚ keys ilu ->
  AddFmtCount fsc pre suf order ilu = Some (w, ilu') ->
  ilu !! i = Some x ->
  ContainsAny (Type_ x) "S" = false -> ContainsAny (Type_ x) "N" = false ->
  ContainsAny (Type_ x) "B" = false -> ContainsAny (Type_ x) "F" = false ->
  ContainsAny (Type_ x) "_" = false -> ContainsAny (Type_ x) "%" = false ->
  let n := fsc (Strg x) in
  (n = 0 -> ilu' !! i = Some x) /\
  (1 <= n <= 12 ->
   ilu' !! i = Some {| Type_ := Type_ x +:+ "_" +:+ itoa n; Strg := Strg x |}).
Proof.
  intros Hp Hpass Hx HS HN HB HF Hu Hpc n.
  destruct (body_plain fsc pre suf x HS HN HB HF Hu Hpc) as [H0 Hn].
  rewrite (pass_lookup fsc pre suf order [] ilu w ilu'
             (keys_NoDup ilu order Hp) Hpass i).
  rewrite decide_True by (by eapply keys_elem). rewrite Hx. simpl.
  unfold rewritten. split; intros Hcount.
  - by rewrite (H0 Hcount).
  - by rewrite (Hn Hcount).
Qed.

(** *** The claims on the reconciler *)

(** C4 (reconciler fixpoint).  [AddFmtCount] applied twice yields the
    catalog that applying it once yields: after a first loop over the keys,
    in any order, a second loop, in any order, stores nothing.  This holds
    for every specifier count, within [[0,12]] or not; the types are those
    whose format [Sprintf] covers (no directive but [%%] and [%d], so every
    type without [%]). *)
Theorem AddFmtCount_idempotent fsc pre suf (ilu : TriceIDLookUp) order1 :
  (forall i x, ilu !! i = Some x -> inFragment (Type_ x +:+ "_%d") = true) ->
  order1 ≡ₚ keys ilu ->
  exists w1 ilu1,
    AddFmtCount fsc pre suf order1 ilu = Some (w1, ilu1) /\
    forall order2, exists w2,
      AddFmtCount fsc pre suf order2 ilu1 = Some (w2, ilu1).
Proof.
  intros Hf Hp. unfold AddFmtCount.
  destruct (pass_defined fsc pre suf order1 [] ilu) as [[w1 ilu1] Hpass].
  { intros i x Hx. apply body_defined. by eapply Hf. }
  exists w1, ilu1. split; [done|]. intros order2.
  apply pass_settled. by eapply pass_all_settled.
Qed.

Lemma AddFmtCount_idempotent_witness :
  exists w1 ilu1,
    AddFmtCount countSpecifiers "" "" [10001] {[10001 := trice16]}
      = Some (w1, ilu1) /\
    forall order2, exists w2,
      AddFmtCount countSpecifiers "" "" order2 ilu1 = Some (w2, ilu1).
Proof.
  apply (AddFmtCount_idempotent countSpecifiers "" "" {[10001 := trice16]} [10001]).
  - intros i x [<- <-]%lookup_singleton_Some. reflexivity.
  - reflexivity.
Defined.

(** The example of the comment on [AddFmtCount] and of the scenario
    "reconciler rewrite". *)
Example AddFmtCount_trice16 :
  AddFmtCount countSpecifiers "" "" [10001] {[10001 := trice16]}
  = Some ([], {[10001 := {| Type_ := "TRICE16_2"; Strg := "hi %03u, %5x" |}]}).
Proof. vm_compute. reflexivity. Qed.

(** C5 at a type that holds a [%].  The type is used as a format: the entry
    with type [TRICE%%] and one specifier gets the type [TRICE%_1], not
    [TRICE%%_1]. *)
Theorem AddFmtCount_percent_type :
  ContainsAny (Type_ percent) "_" = false /\
  ContainsAny (Type_ percent) "SNBF" = false /\
  countSpecifiers (Strg percent) = 1 /\
  AddFmtCount countSpecifiers "" "" [10001] {[10001 := percent]}
  = Some ([], {[10001 := {| Type_ := "TRICE%_1"; Strg := "%d" |}]}) /\
  "TRICE%_1" <> Type_ percent +:+ "_" +:+ itoa 1.
Proof.
  split; [reflexivity|]. split; [reflexivity|]. split; [reflexivity|].
  split; [vm_compute; reflexivity | discriminate].
Qed.

End ReconcilerSpec.

(** ** Cached cleaning *)

Module CachedCleanSpec.

Import CachedClean.

Section Cleaning.

Context {FS D : Type}.
Variable E : Env.
Variable A : Afero FS.
Variable H : Helpers FS D.

(** *** What each step does to the list of calls and to the accumulator *)

Lemma calls_join e (st : State FS D) : calls (join e st) = calls st.
Proof. by destruct e. Qed.

Lemma fs_join e (st : State FS D) : fs (join e st) = fs st.
Proof. by destruct e. Qed.

Lemma err_join e (st : State FS D) :
  err (p (join e st)) = match e with
                        | None => err (p st)
                        | Some _ => errors_Join (err (p st)) e
                        end.
Proof. by destruct e. Qed.

Lemma data_join e (st : State FS D) : data (p (join e st)) = data (p st).
Proof. by destruct e. Qed.

(** [do_Remove] hands the filesystem to [Remove] and keeps what it returns. *)
Lemma fs_do_Remove path (st : State FS D) :
  fs (do_Remove A path st) = (Remove A path (fs st)).1.
Proof. unfold do_Remove. by destruct (Remove A path (fs st)). Qed.

Lemma p_do_Remove path (st : State FS D) : p (do_Remove A path st) = p st.
Proof. unfold do_Remove. by destruct (Remove A path (fs st)). Qed.

Lemma calls_do_Remove path (st : State FS D) :
  calls (do_Remove A path st) = calls st ++ [CRemove path].
Proof. unfold do_Remove. by destruct (Remove A path (fs st)). Qed.

Lemma calls_do_MkdirAll dir (st : State FS D) :
  calls (do_MkdirAll A dir st) = calls st ++ [CMkdirAll dir].
Proof.
  unfold do_MkdirAll. destruct (MkdirAll A dir (fs st)). by rewrite calls_join.
Qed.

Lemma calls_do_Copy dst src (st : State FS D) :
  calls (do_Copy H dst src st) = calls st ++ [CCopy dst src].
Proof.
  unfold do_Copy. destruct (CopyFileWithMTime H dst src (fs st)).
  by rewrite calls_join.
Qed.

Lemma calls_do_Transform path fileInfo (st : State FS D) :
  calls (do_Transform H path fileInfo st) = calls st ++ [CTransform path].
Proof.
  unfold do_Transform.
  destruct (processTriceIDCleaning H path fileInfo (fs st) (p st)) as [[f q] e].
  by rewrite calls_join.
Qed.

(** [do_MkdirAll] and [do_Copy] hand the filesystem to the operation, keep
    what it returns and join its error. *)
Lemma fs_do_MkdirAll dir (st : State FS D) :
  fs (do_MkdirAll A dir st) = (MkdirAll A dir (fs st)).1.
Proof.
  unfold do_MkdirAll. destruct (MkdirAll A dir (fs st)). by rewrite fs_join.
Qed.

Lemma data_do_MkdirAll dir (st : State FS D) :
  data (p (do_MkdirAll A dir st)) = data (p st).
Proof.
  unfold do_MkdirAll. destruct (MkdirAll A dir (fs st)). by rewrite data_join.
Qed.

Lemma err_do_MkdirAll dir (st : State FS D) :
  (MkdirAll A dir (fs st)).2 = None ->
  err (p (do_MkdirAll A dir st)) = err (p st).
Proof.
  unfold do_MkdirAll. destruct (MkdirAll A dir (fs st)) as [f e]. simpl.
  by intros ->.
Qed.

Lemma fs_do_Copy dst src (st : State FS D) :
  fs (do_Copy H dst src st) = (CopyFileWithMTime H dst src (fs st)).1.
Proof.
  unfold do_Copy. destruct (CopyFileWithMTime H dst src (fs st)).
  by rewrite fs_join.
Qed.

Lemma data_do_Copy dst src (st : State FS D) :
  data (p (do_Copy H dst src st)) = data (p st).
Proof.
  unfold do_Copy. destruct (CopyFileWithMTime H dst src (fs st)).
  by rewrite data_join.
Qed.

Lemma err_do_Copy dst src (st : State FS D) :
  (CopyFileWithMTime H dst src (fs st)).2 = None ->
  err (p (do_Copy H dst src st)) = err (p st).
Proof.
  unfold do_Copy. destruct (CopyFileWithMTime H dst src (fs st)) as [f e]. simpl.
  by intros ->.
Qed.

(** [OnErrFv] returns the accumulated error and leaves the filesystem and
    the run's data as they are. *)
Lemma OnErrFv_spec (st : State FS D) :
  exists st', OnErrFv st = (st', err (p st)) /\
              fs st' = fs st /\ p st' = p st /\
              calls st' = calls st ++ match err (p st) with
                                      | Some e => [COnErrFv e]
                                      | None => []
                                      end.
Proof.
  unfold OnErrFv. destruct (err (p st)) as [e|] eqn:He.
  - by exists (record (COnErrFv e) st).
  - exists st. by rewrite app_nil_r.
Qed.

(** *** From the entry to the decision on the twins *)

(** A call that starts without an accumulated error, with the cache enabled
    and present, decides on the two twins of the file. *)
Lemma cacheCheck_twins path fileInfo (st : State FS D) ins cln :
  TriceCacheEnabled E = true ->
  is_Some (Stat A (fs st) (cache E)) ->
  err (p st) = None ->
  cacheTwins E path = Some (ins, cln) ->
  cacheCheck E A H path fileInfo st = twinCheck A H ins cln path fileInfo st.
Proof.
  intros Hen [c Hc] Herr. unfold cacheCheck, cacheTwins.
  rewrite Herr, Hen, Hc.
  destruct (filepath_Abs E path) as [fullPath [e|]]; [discriminate|].
  destruct (Cut fullPath ":") as [[before after] found].
  destruct (found && String.eqb (GOOS E) "windows" && (String.length before =? 1)%nat).
  - destruct (os_UserHomeDir E) as [home [e|]]; [discriminate|].
    by intros [= <- <-].
  - by intros [= <- <-].
Qed.

(** With an accumulated error the call returns at once. *)
Lemma triceIDCleaning_skips path fileInfo (st : State FS D) e :
  err (p st) = Some e ->
  triceIDCleaning E A H path fileInfo st = (st, Some e).
Proof. intros He. unfold triceIDCleaning, cacheCheck. by rewrite He. Qed.

Lemma cleanFiles_skips files : forall (st : State FS D) e,
  err (p st) = Some e -> cleanFiles E A H files st = st.
Proof.
  induction files as [|[path fileInfo] files IH]; intros st e He; simpl; [done|].
  rewrite (triceIDCleaning_skips path fileInfo st e He). simpl. by eapply IH.
Qed.

(** *** The claims on [triceIDCleaning] *)

(** C6 (already cleaned: no-op).  With the cache enabled and the cache
    directory present, if the cleaned twin of the file exists with the
    modification time of the file, then [triceIDCleaning] calls no transform
    and leaves the filesystem (the file and both twins) and the run's data
    (the catalog, the accumulated error) as they are; it returns the error
    state it found and writes one line at most. *)
Theorem cleaned_before_noop path fileInfo (st : State FS D) ins cln cCache :
  TriceCacheEnabled E = true ->
  is_Some (Stat A (fs st) (cache E)) ->
  cacheTwins E path = Some (ins, cln) ->
  Stat A (fs st) cln = Some cCache ->
  ModTime cCache = ModTime fileInfo ->
  exists st',
    triceIDCleaning E A H path fileInfo st = (st', err (p st)) /\
    fs st' = fs st /\ p st' = p st /\
    calls st' =
      calls st ++ match err (p st) with
                  | None => [CTell "trice c was executed before, nothing to do"]
                  | Some _ => []
                  end.
Proof.
  intros Hen Hc Htw Hcl Hmt.
  destruct (err (p st)) as [e|] eqn:He.
  - rewrite (triceIDCleaning_skips path fileInfo st e He).
    exists st. by rewrite app_nil_r.
  - unfold triceIDCleaning.
    rewrite (cacheCheck_twins path fileInfo st ins cln Hen Hc He Htw).
    unfold twinCheck, Time_Equal. rewrite Hcl, Hmt, Z.eqb_refl.
    unfold OnErrFv, Tell, record. simpl. rewrite He. eauto.
Qed.

(** C7 (amended: edited file, invalidation).  In a call that starts without
    an accumulated error, with the cache enabled and present, if both twins
    of the file exist and neither has the modification time of the file, then
    [triceIDCleaning] removes the inserted and then the cleaned twin before
    the transform: the transform is run on the filesystem that the two
    [Remove] calls return, with the run's data as they were.  When the
    accumulated error is still [nil] after the transform, [MkdirAll] and
    [CopyFileWithMTime] from the file to the cleaned twin are run on the
    filesystem the transform returned, and if the copy succeeds and keeps
    its promise the cleaned twin has the modification time the file has
    then; otherwise the filesystem is left as the transform returned it.  The
    call returns the accumulated error. *)
Theorem edited_removes_twins_first path fileInfo (st : State FS D)
    ins cln cCache iCache :
  TriceCacheEnabled E = true ->
  is_Some (Stat A (fs st) (cache E)) ->
  err (p st) = None ->
  cacheTwins E path = Some (ins, cln) ->
  Stat A (fs st) cln = Some cCache ->
  Stat A (fs st) ins = Some iCache ->
  ModTime cCache <> ModTime fileInfo ->
  ModTime iCache <> ModTime fileInfo ->
  let removed := (Remove A cln (Remove A ins (fs st)).1).1 in
  let t := processTriceIDCleaning H path fileInfo removed (p st) in
  let acc := match t.2 with
             | None => err t.1.2
             | Some _ => errors_Join (err t.1.2) t.2
             end in
  let made := MkdirAll A (filepath_Dir E cln) t.1.1 in
  let copied := CopyFileWithMTime H cln path made.1 in
  exists st',
    triceIDCleaning E A H path fileInfo st = (st', err (p st')) /\
    calls st' = calls st ++
                [CTell "File was edited, invalidate cache";
                 CRemove ins; CRemove cln; CTransform path] ++
                (if bool_decide (acc = None) then cacheUpdate E cln path else [])
                ++ reported (err (p st')) /\
    fs st' = (if bool_decide (acc = None) then copied.1 else t.1.1) /\
    data (p st') = data t.1.2 /\
    (acc <> None -> err (p st') = acc) /\
    (acc = None -> made.2 = None -> copied.2 = None -> err (p st') = None) /\
    (preservesMTime A H -> acc = None -> copied.2 = None ->
     ModTime <$> Stat A (fs st') cln = ModTime <$> Stat A made.1 path).
Proof.
  intros Hen Hc He Htw Hcl Hin Hnc Hni. cbv zeta.
  unfold triceIDCleaning.
  rewrite (cacheCheck_twins path fileInfo st ins cln Hen Hc He Htw).
  unfold twinCheck, Time_Equal. rewrite Hcl, Hin.
  destruct (Z.eqb_spec (ModTime fileInfo) (ModTime cCache)); [congruence|].
  destruct (Z.eqb_spec (ModTime fileInfo) (ModTime iCache)); [congruence|].
  cbn [andb]. unfold clean. rewrite Hen. cbn [andb negb].
  set (st1 := do_Remove A cln
                (do_Remove A ins (Tell "File was edited, invalidate cache" st))).
  assert (Hfs1 : fs st1 = (Remove A cln (Remove A ins (fs st)).1).1)
    by (unfold st1; by rewrite !fs_do_Remove).
  assert (Hp1 : p st1 = p st) by (unfold st1; by rewrite !p_do_Remove).
  assert (Hc1 : calls st1 = calls st ++ [CTell "File was edited, invalidate cache";
                                         CRemove ins; CRemove cln]).
  { unfold st1. rewrite !calls_do_Remove. unfold Tell, record. simpl.
    by rewrite <- !app_assoc. }
  unfold do_Transform. rewrite Hfs1, Hp1, Hc1.
  destruct (processTriceIDCleaning H path fileInfo
              (Remove A cln (Remove A ins (fs st)).1).1 (p st))
    as [[f3 q3] e3].
  cbn [fst snd].
  set (acc := match e3 with
              | None => err q3
              | Some _ => errors_Join (err q3) e3
              end).
  set (st2 := join e3 _).
  assert (Hfs2 : fs st2 = f3) by (unfold st2; by rewrite fs_join).
  assert (He2 : err (p st2) = acc) by (unfold st2; by rewrite err_join).
  assert (Hd2 : data (p st2) = data q3) by (unfold st2; by rewrite data_join).
  assert (Hc2 : calls st2 = calls st ++ [CTell "File was edited, invalidate cache";
                                         CRemove ins; CRemove cln; CTransform path]).
  { unfold st2. rewrite calls_join. simpl. by rewrite <- !app_assoc. }
  rewrite He2. clearbody st2. clear st1 Hfs1 Hp1 Hc1.
  destruct (bool_decide (acc = None)) eqn:Hacc.
  - apply bool_decide_eq_true in Hacc.
    set (stT := Tell "Copy file into the cleaned-cache." st2).
    set (stM := do_MkdirAll A (filepath_Dir E cln) stT).
    set (X := do_Copy H cln path stM).
    assert (HfsT : fs stT = f3) by done.
    assert (HfsM : fs stM = (MkdirAll A (filepath_Dir E cln) f3).1)
      by (unfold stM; by rewrite fs_do_MkdirAll, HfsT).
    assert (HfsX : fs X = (CopyFileWithMTime H cln path
                             (MkdirAll A (filepath_Dir E cln) f3).1).1)
      by (unfold X; by rewrite fs_do_Copy, HfsM).
    assert (HdX : data (p X) = data q3)
      by (unfold X, stM; by rewrite data_do_Copy, data_do_MkdirAll).
    assert (HeX : (MkdirAll A (filepath_Dir E cln) f3).2 = None ->
                  (CopyFileWithMTime H cln path
                     (MkdirAll A (filepath_Dir E cln) f3).1).2 = None ->
                  err (p X) = None).
    { intros H4 H5. unfold X. rewrite err_do_Copy by (by rewrite HfsM).
      unfold stM. rewrite err_do_MkdirAll by (by rewrite HfsT).
      unfold stT. simpl. congruence. }
    assert (HcX : calls X = calls st ++
              [CTell "File was edited, invalidate cache";
               CRemove ins; CRemove cln; CTransform path] ++ cacheUpdate E cln path).
    { unfold X, stM, stT. rewrite calls_do_Copy, calls_do_MkdirAll.
      unfold Tell, record, cacheUpdate. simpl.
      rewrite Hc2, <- !app_assoc. done. }
    clearbody X.
    destruct (OnErrFv_spec X) as (st' & Heq & Hfs' & Hp' & Hcalls').
    exists st'. rewrite Hp'. split; [done|]. split.
    { rewrite Hcalls', HcX, <- !app_assoc. done. }
    split; [congruence|]. split; [congruence|]. split; [done|].
    split; [done|].
    intros Hpres _ H5. rewrite Hfs', HfsX.
    destruct (CopyFileWithMTime H cln path (MkdirAll A (filepath_Dir E cln) f3).1)
      as [f5 e5] eqn:Hcopy.
    simpl in *. subst e5. by apply Hpres.
  - apply bool_decide_eq_false in Hacc.
    destruct (OnErrFv_spec st2) as (st' & Heq & Hfs' & Hp' & Hcalls').
    exists st'. rewrite Hp'. split; [done|]. split.
    { rewrite Hcalls', Hc2, <- !app_assoc. done. }
    split; [congruence|]. split; [congruence|]. split; [done|].
    split; intros; contradiction.
Qed.

(** C10 (amended).  When the accumulated error is not [nil] after the
    transform, [triceIDCleaning] returns it and calls neither [MkdirAll] nor
    [CopyFileWithMTime]: the filesystem and the run's data stay as the
    transform left them, and only lines are written. *)
Theorem error_skips_cache_write path fileInfo (st : State FS D)
    cacheExists cln st0 e :
  cacheCheck E A H path fileInfo st = GotoClean cacheExists cln st0 ->
  err (p (do_Transform H path fileInfo st0)) = Some e ->
  exists st' rest,
    triceIDCleaning E A H path fileInfo st = (st', Some e) /\
    fs st' = fs (do_Transform H path fileInfo st0) /\
    p st' = p (do_Transform H path fileInfo st0) /\
    calls st' = calls st0 ++ CTransform path :: rest /\
    Forall silent rest.
Proof.
  intros Hcc He. unfold triceIDCleaning. rewrite Hcc. unfold clean.
  assert (Hne : err (p (do_Transform H path fileInfo st0)) <> None) by congruence.
  rewrite (bool_decide_eq_false_2 _ Hne), andb_false_r.
  set (st2 := do_Transform H path fileInfo st0) in *.
  set (st2' := if TriceCacheEnabled E && negb cacheExists
               then record (CWarnNoCache (cache E)) st2 else st2).
  assert (Hst2' : fs st2' = fs st2 /\ p st2' = p st2 /\
                  exists rest, calls st2' = calls st0 ++ CTransform path :: rest
                               /\ Forall silent rest).
  { unfold st2', st2.
    destruct (TriceCacheEnabled E && negb cacheExists); simpl;
      rewrite calls_do_Transform, <- ?app_assoc; repeat split; eauto.
    eexists. split; [done|]. by repeat constructor. }
  destruct Hst2' as (Hfs & Hp & rest & Hcalls & Hsilent).
  destruct (OnErrFv_spec st2') as (st' & Heq & Hfs' & Hp' & Hcalls').
  rewrite Heq, Hp, He. exists st', (rest ++ [COnErrFv e]).
  split; [done|]. split; [congruence|]. split; [congruence|].
  rewrite Hcalls', Hp, He, Hcalls, <- app_assoc. split; [done|].
  apply Forall_app. split; [done | by repeat constructor].
Qed.

(** C8 (amended).  In a call that reaches the transform (the label
    [clean:]), the call returns the accumulator, and the accumulator is not
    [nil] when the transform returns an error, or when, after a transform
    that left it [nil], [MkdirAll] or [CopyFileWithMTime] of the cache
    update returns an error.  Once the accumulator is not [nil],
    [triceIDCleaning] returns at once for every later file of the run: no
    transform is attempted and the state stays as it is. *)
Theorem failed_file_stops_run path fileInfo (st : State FS D)
    cacheExists cln st0 f1 q1 e1 :
  cacheCheck E A H path fileInfo st = GotoClean cacheExists cln st0 ->
  processTriceIDCleaning H path fileInfo (fs st0) (p st0) = (f1, q1, e1) ->
  let run := triceIDCleaning E A H path fileInfo st in
  let made := MkdirAll A (filepath_Dir E cln) f1 in
  let copied := CopyFileWithMTime H cln path made.1 in
  run.2 = err (p run.1) /\
  (is_Some e1 -> is_Some (err (p run.1))) /\
  (e1 = None -> err q1 = None ->
   TriceCacheEnabled E = true -> cacheExists = true ->
   is_Some made.2 \/ is_Some copied.2 -> is_Some (err (p run.1))) /\
  (is_Some (err (p run.1)) ->
   forall files, cleanFiles E A H files run.1 = run.1).
Proof.
  intros Hcc Hproc run made copied.
  assert (Hrun : run = clean E A H cacheExists cln path fileInfo st0).
  { unfold run, triceIDCleaning. by rewrite Hcc. }
  assert (Hst2 : do_Transform H path fileInfo st0
                 = join e1 (Build_State f1 q1 (calls st0 ++ [CTransform path]))).
  { unfold do_Transform. by rewrite Hproc. }
  unfold clean in Hrun. rewrite Hst2 in Hrun.
  set (st2 := join e1 (Build_State f1 q1 (calls st0 ++ [CTransform path]))) in *.
  set (X := if TriceCacheEnabled E && cacheExists && bool_decide (err (p st2) = None)
            then do_Copy H cln path
                   (do_MkdirAll A (filepath_Dir E cln)
                      (Tell "Copy file into the cleaned-cache." st2))
            else st2) in *.
  set (Y := if TriceCacheEnabled E && negb cacheExists
            then record (CWarnNoCache (cache E)) X else X) in *.
  assert (HY : p Y = p X)
    by (unfold Y; by destruct (TriceCacheEnabled E && negb cacheExists)).
  destruct (OnErrFv_spec Y) as (st' & Heq & _ & Hp & _).
  rewrite Heq in Hrun. rewrite Hrun. simpl. rewrite Hp, HY.
  split; [done|]. split; [|split].
  - intros [e ->]. unfold X.
    assert (Hne : err (p st2) <> None) by (unfold st2; simpl; by destruct (err q1)).
    rewrite (bool_decide_eq_false_2 _ Hne), andb_false_r.
    destruct (err (p st2)); [eauto | done].
  - intros He1 Hq Hen Hce Hfail. unfold X, st2. subst e1 cacheExists.
    rewrite Hen. simpl. rewrite bool_decide_eq_true_2 by done.
    unfold do_Copy, do_MkdirAll. simpl. fold made.
    destruct made as [f2 e2] eqn:Hmade. simpl in *.
    rewrite fs_join. simpl. fold copied.
    destruct copied as [f3 e3] eqn:Hcopied. simpl in *.
    rewrite err_join.
    destruct e3 as [e3|].
    + simpl. destruct (err (p (join e2 _))); simpl; eauto.
    + destruct Hfail as [[e Hfail]|[e Hfail]]; [|discriminate].
      subst e2. simpl. rewrite Hq. simpl. eauto.
  - intros [e He] files. apply (cleanFiles_skips files st' e). by rewrite Hp, HY.
Qed.

End Cleaning.

(** *** The claims on the in-memory filesystem *)

Import MemFs.

Lemma memCopy_preservesMTime broken : preservesMTime memAfero (memHelpers broken).
Proof.
  intros dst src f f'. simpl. unfold memCopy, memStat.
  destruct (f !! src) as [x|] eqn:Hx; [|discriminate].
  intros [= <-]. by rewrite lookup_insert_eq.
Qed.

Lemma cleaned_before_noop_witness :
  exists st',
    triceIDCleaning memEnv memAfero (memHelpers []) "/src/a.c" at9 (start cleaned)
      = (st', err (p (start cleaned))) /\
    fs st' = fs (start cleaned) /\ p st' = p (start cleaned) /\
    calls st' =
      calls (start cleaned) ++
      match err (p (start cleaned)) with
      | None => [CTell "trice c was executed before, nothing to do"]
      | Some _ => []
      end.
Proof.
  apply (cleaned_before_noop memEnv memAfero (memHelpers []) "/src/a.c" at9
           (start cleaned) "/home/u/.trice/cache/inserted/src/a.c"
           "/home/u/.trice/cache/cleaned/src/a.c" {| ModTime := 9 |}).
  - reflexivity.
  - vm_compute. eauto.
  - vm_compute. reflexivity.
  - vm_compute. reflexivity.
  - reflexivity.
Defined.

Lemma edited_removes_twins_first_witness :
  let ins := "/home/u/.trice/cache/inserted/src/a.c" in
  let cln := "/home/u/.trice/cache/cleaned/src/a.c" in
  let path := "/src/a.c" in
  let st := start edited in
  let removed := (Remove memAfero cln (Remove memAfero ins (fs st)).1).1 in
  let t := processTriceIDCleaning (memHelpers []) path at9 removed (p st) in
  let acc := match t.2 with
             | None => err t.1.2
             | Some _ => errors_Join (err t.1.2) t.2
             end in
  let made := MkdirAll memAfero (filepath_Dir memEnv cln) t.1.1 in
  let copied := CopyFileWithMTime (memHelpers []) cln path made.1 in
  exists st',
    triceIDCleaning memEnv memAfero (memHelpers []) path at9 st
      = (st', err (p st')) /\
    calls st' = calls st ++
                [CTell "File was edited, invalidate cache";
                 CRemove ins; CRemove cln; CTransform path] ++
                (if bool_decide (acc = None) then cacheUpdate memEnv cln path
                 else [])
                ++ reported (err (p st')) /\
    fs st' = (if bool_decide (acc = None) then copied.1 else t.1.1) /\
    data (p st') = data t.1.2 /\
    (acc <> None -> err (p st') = acc) /\
    (acc = None -> made.2 = None -> copied.2 = None -> err (p st') = None) /\
    (preservesMTime memAfero (memHelpers []) -> acc = None -> copied.2 = None ->
     ModTime <$> Stat memAfero (fs st') cln
     = ModTime <$> Stat memAfero made.1 path).
Proof.
  apply (edited_removes_twins_first memEnv memAfero (memHelpers []) "/src/a.c" at9
           (start edited) "/home/u/.trice/cache/inserted/src/a.c"
           "/home/u/.trice/cache/cleaned/src/a.c"
           {| ModTime := 7 |} {| ModTime := 7 |}).
  - reflexivity.
  - vm_compute. eauto.
  - reflexivity.
  - vm_compute. reflexivity.
  - vm_compute. reflexivity.
  - vm_compute. reflexivity.
  - simpl. lia.
  - simpl. lia.
Defined.

(** In that scenario the transform finds neither twin: both are gone from
    the filesystem the two [Remove] calls return. *)
Example invalidation_before_transform :
  let ins := "/home/u/.trice/cache/inserted/src/a.c" in
  let cln := "/home/u/.trice/cache/cleaned/src/a.c" in
  let removed := (Remove memAfero cln (Remove memAfero ins edited).1).1 in
  memStat removed ins = None /\ memStat removed cln = None /\
  memStat removed "/src/a.c" = Some at9.
Proof. repeat split; vm_compute; reflexivity. Qed.

(** C7, as stated, fails in a run that has already failed: the cache is
    enabled and present, both twins of [/src/a.c] exist and are older than
    the file, and yet the call returns at once: no [Remove], no transform,
    no copy, and both stale twins are still there. *)
Lemma failed_run_keeps_stale_twins :
  let ins := "/home/u/.trice/cache/inserted/src/a.c" in
  let cln := "/home/u/.trice/cache/cleaned/src/a.c" in
  let r := triceIDCleaning memEnv memAfero (memHelpers []) "/src/a.c" at9
             (failed edited) in
  TriceCacheEnabled memEnv = true /\
  is_Some (memStat edited (cache memEnv)) /\
  cacheTwins memEnv "/src/a.c" = Some (ins, cln) /\
  memStat edited cln = Some {| ModTime := 7 |} /\
  memStat edited ins = Some {| ModTime := 7 |} /\
  ModTime at9 = 9 /\
  r = (failed edited, Some (Err ["clean /src/0.c"])) /\
  calls r.1 = [] /\
  memStat (fs r.1) cln = Some {| ModTime := 7 |} /\
  memStat (fs r.1) ins = Some {| ModTime := 7 |}.
Proof.
  repeat split; try (vm_compute; reflexivity). vm_compute. eauto.
Qed.

(** The scenario "invalidation": twins of instant 7, file of instant 9; both
    twins are removed, the transform runs, and the cleaned twin is written
    again with the modification time the file has then. *)
Example invalidation_scenario :
  let r := triceIDCleaning memEnv memAfero (memHelpers []) "/src/a.c" at9
             (start edited) in
  r.2 = None /\
  calls r.1 = [CTell "File was edited, invalidate cache";
               CRemove "/home/u/.trice/cache/inserted/src/a.c";
               CRemove "/home/u/.trice/cache/cleaned/src/a.c";
               CTransform "/src/a.c";
               CTell "Copy file into the cleaned-cache.";
               CMkdirAll "/home/u/.trice/cache/cleaned/src";
               CCopy "/home/u/.trice/cache/cleaned/src/a.c" "/src/a.c"] /\
  memStat (fs r.1) "/home/u/.trice/cache/inserted/src/a.c" = None /\
  memStat (fs r.1) "/home/u/.trice/cache/cleaned/src/a.c"
  = memStat (fs r.1) "/src/a.c".
Proof. repeat split; vm_compute; reflexivity. Qed.

(** C10, as stated, fails on the invalidation path: the file was edited, both
    twins are removed before the transform, the transform fails, and the
    cache of the file is not what it was. *)
Lemma error_path_changes_cache :
  let ins := "/home/u/.trice/cache/inserted/src/a.c" in
  let cln := "/home/u/.trice/cache/cleaned/src/a.c" in
  let r := triceIDCleaning memEnv memAfero (memHelpers ["/src/a.c"]) "/src/a.c"
             at9 (start edited) in
  r.2 = Some (Err ["clean /src/a.c"]) /\
  err (p r.1) = Some (Err ["clean /src/a.c"]) /\
  memStat edited cln = Some {| ModTime := 7 |} /\
  memStat edited ins = Some {| ModTime := 7 |} /\
  memStat (fs r.1) cln = None /\
  memStat (fs r.1) ins = None.
Proof. repeat split; vm_compute; reflexivity. Qed.

Lemma error_skips_cache_write_witness :
  let st0 :=
    do_Remove memAfero "/home/u/.trice/cache/cleaned/src/a.c"
      (do_Remove memAfero "/home/u/.trice/cache/inserted/src/a.c"
         (Tell "File was edited, invalidate cache" (start edited))) in
  exists st' rest,
    triceIDCleaning memEnv memAfero (memHelpers ["/src/a.c"]) "/src/a.c" at9
      (start edited) = (st', Some (Err ["clean /src/a.c"])) /\
    fs st' = fs (do_Transform (memHelpers ["/src/a.c"]) "/src/a.c" at9 st0) /\
    p st' = p (do_Transform (memHelpers ["/src/a.c"]) "/src/a.c" at9 st0) /\
    calls st' = calls st0 ++ CTransform "/src/a.c" :: rest /\
    Forall silent rest.
Proof.
  apply (error_skips_cache_write memEnv memAfero (memHelpers ["/src/a.c"])
           "/src/a.c" at9 (start edited) true
           "/home/u/.trice/cache/cleaned/src/a.c").
  - vm_compute. reflexivity.
  - vm_compute. reflexivity.
Defined.

(** C8, as stated, fails: the transform of [/src/a.c] fails, and the
    transform of [/src/b.c], the next file of the run, is not attempted,
    though it is when the file is cleaned on its own. *)
Lemma error_stops_later_files :
  let H := memHelpers ["/src/a.c"] in
  let run := cleanFiles memEnv memAfero H [("/src/a.c", at9); ("/src/b.c", at9)]
               (start tree) in
  let alone := cleanFiles memEnv memAfero H [("/src/b.c", at9)] (start tree) in
  calls run = [CTell "no cleaned Cache file"; CTransform "/src/a.c";
               COnErrFv (Err ["clean /src/a.c"])] /\
  (CTransform "/src/b.c" ∉ calls run) /\
  (CTransform "/src/b.c" ∈ calls alone).
Proof.
  intros H run alone.
  assert (Hrun : calls run = [CTell "no cleaned Cache file"; CTransform "/src/a.c";
                              COnErrFv (Err ["clean /src/a.c"])])
    by (vm_compute; reflexivity).
  assert (Halone : calls alone = [CTell "no cleaned Cache file";
                                  CTransform "/src/b.c";
                                  CTell "Copy file into the cleaned-cache.";
                                  CMkdirAll "/home/u/.trice/cache/cleaned/src";
                                  CCopy "/home/u/.trice/cache/cleaned/src/b.c"
                                        "/src/b.c"])
    by (vm_compute; reflexivity).
  rewrite Hrun, Halone. split; [done|]. split.
  - intros Hin. repeat (apply elem_of_cons in Hin as [Hin|Hin]; [discriminate|]).
    inversion Hin.
  - right. left.
Qed.

Lemma failed_file_stops_run_witness :
  let H := memHelpers ["/src/a.c"] in
  let cln := "/home/u/.trice/cache/cleaned/src/a.c" in
  let run := triceIDCleaning memEnv memAfero H "/src/a.c" at9 (start tree) in
  let made := MkdirAll memAfero (filepath_Dir memEnv cln) tree in
  let copied := CopyFileWithMTime H cln "/src/a.c" made.1 in
  run.2 = err (p run.1) /\
  (is_Some (Some (Err ["clean /src/a.c"])) -> is_Some (err (p run.1))) /\
  (Some (Err ["clean /src/a.c"]) = None -> err (p (start tree)) = None ->
   TriceCacheEnabled memEnv = true -> true = true ->
   is_Some made.2 \/ is_Some copied.2 -> is_Some (err (p run.1))) /\
  (is_Some (err (p run.1)) ->
   forall files, cleanFiles memEnv memAfero H files run.1 = run.1).
Proof.
  apply (failed_file_stops_run memEnv memAfero (memHelpers ["/src/a.c"])
           "/src/a.c" at9 (start tree) true
           "/home/u/.trice/cache/cleaned/src/a.c"
           (Tell "no cleaned Cache file" (start tree)) tree (p (start tree))
           (Some (Err ["clean /src/a.c"]))).
  - vm_compute. reflexivity.
  - vm_compute. reflexivity.
Defined.

End CachedCleanSpec.

(** ** More on the allocator *)

Module AllocatorMore.

Import GoIntFacts Allocator AllocatorSpec.

(** *** The order of the keys *)

Lemma range_hits_perm id order1 order2 :
  order1 ≡ₚ order2 -> range_hits id order1 = range_hits id order2.
Proof.
  intros Hp. apply eq_true_iff_eq. rewrite !range_hits_elem. by rewrite Hp.
Qed.

Lemma upward_loop_perm order1 order2 :
  order1 ≡ₚ order2 ->
  forall fuel id, upward_loop fuel order1 id = upward_loop fuel order2 id.
Proof.
  intros Hp. induction fuel as [|fuel IH]; intros id; simpl; [done|].
  rewrite (range_hits_perm id order1 order2 Hp). by rewrite IH.
Qed.

Lemma downward_loop_perm order1 order2 :
  order1 ≡ₚ order2 ->
  forall fuel id, downward_loop fuel order1 id = downward_loop fuel order2 id.
Proof.
  intros Hp. induction fuel as [|fuel IH]; intros id; simpl; [done|].
  rewrite (range_hits_perm id order1 order2 Hp). by rewrite IH.
Qed.

Lemma random_loop_perm order1 order2 :
  order1 ≡ₚ order2 ->
  forall fuel m I rnd w id,
    random_loop fuel order1 m I rnd w id = random_loop fuel order2 m I rnd w id.
Proof.
  intros Hp. induction fuel as [|fuel IH]; intros m I rnd w id; simpl; [done|].
  rewrite (range_hits_perm id order1 order2 Hp). by rewrite IH.
Qed.

(** X2.  The outcome of [newID], its output and the random numbers it uses
    do not depend on the order in which [range] delivers the keys of the
    map: two orders that are permutations of each other give the same
    result, for every strategy, all bounds and any fuel. *)
Theorem newID_order_independent Verbose fuel order1 order2
    (ilu : TriceIDLookUp) rnd m M s :
  order1 ≡ₚ order2 ->
  newID Verbose fuel order1 ilu rnd m M s = newID Verbose fuel order2 ilu rnd m M s.
Proof.
  intros Hp. unfold newID, newRandomID, newUpwardID, newDownwardID.
  rewrite (upward_loop_perm order1 order2 Hp).
  rewrite (downward_loop_perm order1 order2 Hp).
  destruct (String.eqb s "random"); [|done].
  destruct (negb _); [done|]. destruct (_ <=? 0); [done|].
  destruct (Intn _ _) as [r rnd1]. destruct (len ilu =? 0); [done|].
  by rewrite (random_loop_perm order1 order2 Hp).
Qed.

Lemma newID_order_independent_witness :
  newID true 4 [100; 101; 103] sample counting 100 200 "upward"
  = newID true 4 [103; 100; 101] sample counting 100 200 "upward".
Proof.
  apply (newID_order_independent true 4 [100; 101; 103] [103; 100; 101]).
  change [103; 100; 101] with ([103] ++ [100; 101]).
  change [100; 101; 103] with ([100; 101] ++ [103]).
  apply Permutation_app_comm.
Defined.

(** *** A full range *)

(** X1.  Exhaustion: when the catalog has as many entries as the range has
    IDs, or more, every strategy ends the process with the message "no new ID
    possible" naming [min], [max] and [len(ilu)]; nothing is drawn, no
    warning is written. *)
Theorem newID_exhausted Verbose fuel order (ilu : TriceIDLookUp) rnd m M s :
  is_int m -> is_int M -> m <= M -> M - m + 1 <= int_max ->
  M - m + 1 <= len ilu -> len ilu <= int_max ->
  s ∈ ["random"; "upward"; "downward"] ->
  newID Verbose fuel order ilu rnd m M s
  = Some (Fatal (NoNewID m M (len ilu)),
          if Verbose then [EvParams m M s] else [], rnd).
Proof.
  intros Hm HM Hle Hfit Hfull Hlen Hs.
  assert (HI : interval m M = M - m + 1).
  { unfold interval. rewrite (wrap_id (M - m)) by (unfold is_int, int_min, int_max in *; lia).
    apply wrap_id. unfold is_int, int_min, int_max in *; lia. }
  assert (Hchk : negb (0 <? wrap (interval m M - len ilu)) = true).
  { rewrite HI, wrap_id by (unfold is_int, int_min, int_max in *; lia).
    apply negb_true_iff, Z.ltb_ge. lia. }
  unfold newID, newRandomID, newUpwardID, newDownwardID. rewrite Hchk.
  apply elem_of_cons in Hs as [->|Hs]; [done|].
  apply elem_of_cons in Hs as [->|Hs]; [done|].
  by apply list_elem_of_singleton in Hs as ->.
Qed.

Lemma newID_exhausted_witness :
  newID false 0 (keys crowded) crowded counting 1 8 "random"
  = Some (Fatal (NoNewID 1 8 (len crowded)), [], counting).
Proof.
  apply (newID_exhausted false 0 (keys crowded) crowded counting 1 8 "random").
  - unfold is_int, int_min, int_max. lia.
  - unfold is_int, int_min, int_max. lia.
  - lia.
  - unfold int_max. lia.
  - vm_compute. discriminate.
  - vm_compute. discriminate.
  - left.
Defined.

(** *** Allocating, inserting, allocating again *)

Lemma newUpwardID_least (ilu : TriceIDLookUp) order m M fuel k :
  order ≡ₚ keys ilu -> is_int m -> is_int M -> m <= M ->
  len ilu < interval m M -> (size ilu < fuel)%nat ->
  newUpwardID fuel order ilu m M = Some (Ret k) ->
  m <= k <= M /\ ilu !! k = None /\ forall j, m <= j < k -> is_Some (ilu !! j).
Proof.
  intros Hp Hm HM Hle Hfree Hfuel.
  destruct (freeIDs_pos ilu m M Hm HM Hle Hfree) as (HI & _ & Hchk).
  unfold newUpwardID. rewrite Hchk. rewrite HI in Hfree.
  destruct (least_free_in_range ilu m M Hle Hfree) as (k0 & Hk & Hkf & Hbelow & Hrun).
  destruct (Z.eqb_spec (len ilu) 0) as [H0|Hn0].
  - apply len_0_empty in H0. subst ilu. rewrite map_size_empty in Hrun.
    intros [= <-]. assert (k0 = m) as -> by lia. done.
  - rewrite (upward_loop_spec ilu order Hp fuel m k0);
      unfold is_int in *; [|lia..|done|done|lia].
    by intros [= <-].
Qed.

Lemma newDownwardID_greatest (ilu : TriceIDLookUp) order m M fuel k :
  order ≡ₚ keys ilu -> is_int m -> is_int M -> m <= M ->
  len ilu < interval m M -> (size ilu < fuel)%nat ->
  newDownwardID fuel order ilu m M = Some (Ret k) ->
  m <= k <= M /\ ilu !! k = None /\ forall j, k < j <= M -> is_Some (ilu !! j).
Proof.
  intros Hp Hm HM Hle Hfree Hfuel.
  destruct (freeIDs_pos ilu m M Hm HM Hle Hfree) as (HI & _ & Hchk).
  unfold newDownwardID. rewrite Hchk. rewrite HI in Hfree.
  destruct (greatest_free_in_range ilu m M Hle Hfree)
    as (k0 & Hk & Hkf & Habove & Hrun).
  destruct (Z.eqb_spec (len ilu) 0) as [H0|Hn0].
  - apply len_0_empty in H0. subst ilu. rewrite map_size_empty in Hrun.
    intros [= <-]. assert (k0 = M) as -> by lia. done.
  - rewrite (downward_loop_spec ilu order Hp fuel M k0);
      unfold is_int in *; [|lia..|done|done|lia].
    by intros [= <-].
Qed.

Lemma len_insert_free (ilu : TriceIDLookUp) k x :
  ilu !! k = None -> len (<[k:=x]> ilu) = len ilu + 1.
Proof. intros Hk. unfold len. rewrite map_size_insert_None by done. lia. Qed.

(** X3.  The upward search moves on: when the ID [k] it returned is
    inserted and the range is still not full, the next search returns an ID
    above [k], free in the catalog as it was before. *)
Theorem newUpwardID_after_insert (ilu : TriceIDLookUp) order order' m M fuel k x :
  order ≡ₚ keys ilu -> order' ≡ₚ keys (<[k:=x]> ilu) ->
  is_int m -> is_int M -> m <= M ->
  len ilu + 1 < interval m M -> (size ilu + 1 < fuel)%nat ->
  newUpwardID fuel order ilu m M = Some (Ret k) ->
  exists k', newUpwardID fuel order' (<[k:=x]> ilu) m M = Some (Ret k') /\
             k < k' <= M /\ ilu !! k' = None.
Proof.
  intros Hp Hp' Hm HM Hle Hfree Hfuel Hk.
  destruct (newUpwardID_least ilu order m M fuel k) as (Hr & Hkf & Hbelow);
    [done | done | done | done | lia | lia | done |].
  pose proof (len_insert_free ilu k x Hkf) as Hlen.
  destruct (newUpwardID_fresh (<[k:=x]> ilu) order' m M fuel) as (k' & Heq & Hr' & Hf');
    [done | done | done | done | lia | |].
  { rewrite map_size_insert_None by done. lia. }
  exists k'. split; [done|].
  assert (k' <> k) by (intros ->; by rewrite lookup_insert_eq in Hf').
  rewrite lookup_insert_ne in Hf' by done.
  split; [|done]. split; [|lia].
  destruct (Z_lt_le_dec k' k) as [Hlt|?]; [|lia].
  destruct (Hbelow k') as [y Hy]; [lia | congruence].
Qed.

Lemma newUpwardID_after_insert_witness :
  exists k', newUpwardID 5 (keys (<[102:=sampleFmt]> sample))
               (<[102:=sampleFmt]> sample) 100 200 = Some (Ret k') /\
             102 < k' <= 200 /\ sample !! k' = None.
Proof.
  apply (newUpwardID_after_insert sample (keys sample)
           (keys (<[102:=sampleFmt]> sample)) 100 200 5 102 sampleFmt).
  - reflexivity.
  - reflexivity.
  - unfold is_int, int_min, int_max. lia.
  - unfold is_int, int_min, int_max. lia.
  - lia.
  - vm_compute. reflexivity.
  - vm_compute. lia.
  - vm_compute. reflexivity.
Defined.

(** X4.  The downward search moves on as well: after the insertion of the
    ID [k] it returned, the next search returns an ID below [k]. *)
Theorem newDownwardID_after_insert (ilu : TriceIDLookUp) order order' m M fuel k x :
  order ≡ₚ keys ilu -> order' ≡ₚ keys (<[k:=x]> ilu) ->
  is_int m -> is_int M -> m <= M ->
  len ilu + 1 < interval m M -> (size ilu + 1 < fuel)%nat ->
  newDownwardID fuel order ilu m M = Some (Ret k) ->
  exists k', newDownwardID fuel order' (<[k:=x]> ilu) m M = Some (Ret k') /\
             m <= k' < k /\ ilu !! k' = None.
Proof.
  intros Hp Hp' Hm HM Hle Hfree Hfuel Hk.
  destruct (newDownwardID_greatest ilu order m M fuel k) as (Hr & Hkf & Habove);
    [done | done | done | done | lia | lia | done |].
  pose proof (len_insert_free ilu k x Hkf) as Hlen.
  destruct (newDownwardID_fresh (<[k:=x]> ilu) order' m M fuel)
    as (k' & Heq & Hr' & Hf'); [done | done | done | done | lia | |].
  { rewrite map_size_insert_None by done. lia. }
  exists k'. split; [done|].
  assert (k' <> k) by (intros ->; by rewrite lookup_insert_eq in Hf').
  rewrite lookup_insert_ne in Hf' by done.
  split; [|done]. split; [lia|].
  destruct (Z_lt_le_dec k k') as [Hlt|?]; [|lia].
  destruct (Habove k') as [y Hy]; [lia | congruence].
Qed.

Lemma newDownwardID_after_insert_witness :
  exists k', newDownwardID 5 (keys (<[200:=sampleFmt]> sample))
               (<[200:=sampleFmt]> sample) 100 200 = Some (Ret k') /\
             100 <= k' < 200 /\ sample !! k' = None.
Proof.
  apply (newDownwardID_after_insert sample (keys sample)
           (keys (<[200:=sampleFmt]> sample)) 100 200 5 200 sampleFmt).
  - reflexivity.
  - reflexivity.
  - unfold is_int, int_min, int_max. lia.
  - unfold is_int, int_min, int_max. lia.
  - lia.
  - vm_compute. reflexivity.
  - vm_compute. lia.
  - vm_compute. reflexivity.
Defined.

(** *** The random search, whatever the random numbers *)

Lemma random_loop_safe (ilu : TriceIDLookUp) order m M :
  order ≡ₚ keys ilu -> is_int m -> is_int M -> m <= M ->
  forall fuel rnd w id id' w' rnd',
    m <= id <= M ->
    random_loop fuel order m (M - m + 1) rnd w id = Some (id', w', rnd') ->
    ilu !! id' = None /\ m <= id' <= M /\
    (forall i, EvIDUsed i ∈ w' -> EvIDUsed i ∈ w \/ is_Some (ilu !! i)).
Proof.
  intros Hp Hm HM Hle.
  induction fuel as [|fuel IH]; intros rnd w id id' w' rnd' Hid; simpl;
    [discriminate|].
  destruct (range_hits id order) eqn:Hhit.
  - assert (Hr : 0 <= src rnd (pos rnd) mod (M - m + 1) < M - m + 1)
      by (apply Z.mod_pos_bound; lia).
    rewrite (wrap_id (m + _)) by (unfold is_int in *; lia).
    intros Hloop. apply IH in Hloop as (Hf & Hr' & Hused); [|lia].
    split; [done|]. split; [done|].
    intros i Hi. destruct (Hused i Hi) as [Hin|?]; [|by right].
    apply elem_of_app in Hin as [?|Hin]; [by left|].
    apply list_elem_of_singleton in Hin as [= ->].
    right. by apply (range_hits_used ilu order id Hp).
  - intros [= <- <- <-]. apply (range_hits_free ilu order id Hp) in Hhit.
    split; [done|]. split; [done|]. by left.
Qed.

(** X5.  Whatever numbers the random source delivers, an ID that
    [newRandomID] returns is no key of the catalog and lies in [[m,M]]; every
    ID it reports as "used" is a key of the catalog. *)
Theorem newRandomID_safe (ilu : TriceIDLookUp) order rnd w m M fuel id w' rnd' :
  order ≡ₚ keys ilu -> is_int m -> is_int M -> m <= M ->
  newRandomID fuel order ilu rnd w m M = Some (Ret id, w', rnd') ->
  ilu !! id = None /\ m <= id <= M /\
  (forall i, EvIDUsed i ∈ w' -> EvIDUsed i ∈ w \/ is_Some (ilu !! i)).
Proof.
  intros Hp Hm HM Hle. unfold newRandomID.
  destruct (negb _) eqn:Hchk; [discriminate|].
  destruct (Z.leb_spec (interval m M) 0) as [|Hpos]; [discriminate|].
  rewrite (interval_value m M Hm HM Hle Hpos) in *.
  pose proof (proj1 (interval_exact m M Hm HM Hle) Hpos) as Hfit.
  unfold Intn.
  assert (Hr : 0 <= src rnd (pos rnd) mod (M - m + 1) < M - m + 1)
    by (apply Z.mod_pos_bound; lia).
  rewrite (wrap_id (m + _)) by (unfold is_int in *; lia).
  set (w1 := if _ <? _ then w ++ [EvInfo warning] else w).
  assert (Hw1 : forall i, EvIDUsed i ∈ w1 -> EvIDUsed i ∈ w).
  { unfold w1.
    destruct (wrap (M - m + 1 - len ilu) <? Z.shiftr (M - m + 1) 3); [|done].
    intros i [?|Hin]%elem_of_app; [done|].
    apply list_elem_of_singleton in Hin. discriminate. }
  destruct (Z.eqb_spec (len ilu) 0) as [H0|Hn0].
  - intros [= <- <- <-]. apply len_0_empty in H0. subst ilu.
    split; [apply lookup_empty|]. split; [lia|]. intros i Hi. left. by apply Hw1.
  - destruct (random_loop _ _ _ _ _ _ _) as [[[id1 w2] rnd2]|] eqn:Hloop;
      simpl; [|discriminate].
    intros [= <- <- <-].
    apply (random_loop_safe ilu order m M Hp Hm HM Hle) in Hloop
      as (Hf & Hrange & Hused); [|lia].
    split; [done|]. split; [done|].
    intros i Hi. destruct (Hused i Hi) as [?|?]; [left; by apply Hw1 | by right].
Qed.

Lemma newRandomID_safe_witness :
  sample !! 102 = None /\ 100 <= 102 <= 200 /\
  (forall i, EvIDUsed i ∈ [EvIDUsed 100; EvIDUsed 101] ->
             EvIDUsed i ∈ @nil Event \/ is_Some (sample !! i)).
Proof.
  apply (newRandomID_safe sample (keys sample) counting [] 100 200 3 102
           [EvIDUsed 100; EvIDUsed 101] {| src := Z.of_nat; pos := 3 |}).
  - reflexivity.
  - unfold is_int, int_min, int_max. lia.
  - unfold is_int, int_min, int_max. lia.
  - lia.
  - vm_compute. reflexivity.
Defined.

End AllocatorMore.

(** ** More on the reconciler *)

Module ReconcilerMore.

Import Reconciler ReconcilerSpec.

Lemma ContainsAny_app s t chars :
  ContainsAny (s +:+ t) chars = ContainsAny s chars || ContainsAny t chars.
Proof.
  induction s as [|a s IH]; [done|].
  change (String a s +:+ t) with (String a (s +:+ t)). simpl.
  rewrite IH. by destruct (contains_byte a chars).
Qed.

(** Splitting at the first separator. *)
Lemma Split_first s r sep :
  contains_byte sep s = false ->
  Split (s +:+ String sep r) sep = s :: Split r sep.
Proof.
  induction s as [|a s IH]; simpl.
  - intros _. change ("" +:+ String sep r) with (String sep r). simpl.
    by rewrite Ascii.eqb_refl.
  - destruct (Ascii.eqb a sep) eqn:Ha; [discriminate|]. intros Hc.
    change (String a s +:+ String sep r) with (String a (s +:+ String sep r)).
    simpl. by rewrite (IH Hc).
Qed.

(** The decimal numbers from 1 to 12: digits only, read back by [Atoi]. *)
Lemma itoa_small n :
  1 <= n <= 12 ->
  ContainsAny (itoa n) "S" = false /\ ContainsAny (itoa n) "N" = false /\
  ContainsAny (itoa n) "B" = false /\ ContainsAny (itoa n) "F" = false /\
  contains_byte "_" (itoa n) = false /\ Atoi (itoa n) = Some n.
Proof.
  intros Hn.
  assert (n = 1 \/ n = 2 \/ n = 3 \/ n = 4 \/ n = 5 \/ n = 6 \/ n = 7 \/
          n = 8 \/ n = 9 \/ n = 10 \/ n = 11 \/ n = 12) as Hor by lia.
  clear Hn.
  repeat (destruct Hor as [->|Hor]; [by vm_compute|]).
  subst. by vm_compute.
Qed.

Section Pass.

Variable formatSpecifierCount : string -> Z.
Variables SAliasStrgPrefix SAliasStrgSuffix : string.

#[local] Abbreviation body :=
  (AddFmtCount_body formatSpecifierCount SAliasStrgPrefix SAliasStrgSuffix).
#[local] Abbreviation pass :=
  (AddFmtCount_range formatSpecifierCount SAliasStrgPrefix SAliasStrgSuffix).
#[local] Abbreviation settled :=
  (settled formatSpecifierCount SAliasStrgPrefix SAliasStrgSuffix).
#[local] Abbreviation rewritten :=
  (rewritten formatSpecifierCount SAliasStrgPrefix SAliasStrgSuffix).

(** *** Keys and format strings *)

Lemma pass_Strg order : forall w (ilu : TriceIDLookUp) w' ilu',
  pass order w ilu = Some (w', ilu') ->
  forall i, Strg <$> ilu' !! i = Strg <$> ilu !! i.
Proof.
  induction order as [|k order IH]; intros w ilu w' ilu' Hpass i;
    simpl in Hpass.
  - by injection Hpass as <- <-.
  - destruct (ilu !! k) as [x|] eqn:Hx; [|by eapply IH].
    destruct (body x) as [[r [x'|]]|] eqn:Hb; simpl in Hpass;
      [| by eapply IH | discriminate].
    rewrite (IH _ _ _ _ Hpass i).
    apply body_store in Hb as (t & _ & ->).
    destruct (decide (i = k)) as [->|Hne].
    + by rewrite lookup_insert_eq, Hx.
    + by rewrite lookup_insert_ne.
Qed.

(** X6.  [AddFmtCount] neither adds nor removes a key, and it leaves the
    format string of every entry as it is, in whatever order, and however
    often, the loop visits the keys. *)
Theorem AddFmtCount_keeps_keys_and_Strg order (ilu : TriceIDLookUp) w ilu' :
  AddFmtCount formatSpecifierCount SAliasStrgPrefix SAliasStrgSuffix order ilu
  = Some (w, ilu') ->
  dom ilu' = dom ilu /\
  forall i x', ilu' !! i = Some x' ->
               exists x, ilu !! i = Some x /\ Strg x' = Strg x.
Proof.
  intros Hrun. pose proof (pass_Strg order [] ilu w ilu' Hrun) as HS. split.
  - apply set_eq. intros i. rewrite !elem_of_dom. specialize (HS i).
    destruct (ilu' !! i), (ilu !! i); simpl in HS; try discriminate;
      split; intros [? ?]; eauto; discriminate.
  - intros i x' Hx'. specialize (HS i). rewrite Hx' in HS.
    destruct (ilu !! i) as [x|]; [|discriminate].
    injection HS as HS. eauto.
Qed.

(** *** The order of the visits *)

(** A loop that ran to its end found the body defined on every entry it
    visited. *)
Lemma pass_visits_defined order : forall w (ilu : TriceIDLookUp) w' ilu',
  NoDup order ->
  pass order w ilu = Some (w', ilu') ->
  forall i x, i ∈ order -> ilu !! i = Some x -> is_Some (body x).
Proof.
  induction order as [|k order IH]; intros w ilu w' ilu' Hnd Hpass i x Hin Hx;
    simpl in Hpass; [inversion Hin|].
  apply NoDup_cons in Hnd as [Hk Hnd].
  destruct (decide (i = k)) as [->|Hne].
  - rewrite Hx in Hpass. destruct (body x); [eauto | discriminate].
  - assert (i ∈ order) by (apply elem_of_cons in Hin as [?|?]; done).
    destruct (ilu !! k) as [y|] eqn:Hy; [|by eapply IH].
    destruct (body y) as [[r y']|]; simpl in Hpass; [|discriminate].
    eapply (IH _ _ _ _ Hnd Hpass i x); [done|].
    destruct y'; [by rewrite lookup_insert_ne | done].
Qed.

(** X7.  The catalog that [AddFmtCount] makes does not depend on the order
    in which [range] delivers the keys: if the loop runs to its end in one
    order of the keys, it does in every other, with the same catalog. *)
Theorem AddFmtCount_order_independent order1 order2 (ilu : TriceIDLookUp) w1 ilu1 :
  order1 ≡ₚ keys ilu -> order2 ≡ₚ keys ilu ->
  AddFmtCount formatSpecifierCount SAliasStrgPrefix SAliasStrgSuffix order1 ilu
  = Some (w1, ilu1) ->
  exists w2,
    AddFmtCount formatSpecifierCount SAliasStrgPrefix SAliasStrgSuffix order2 ilu
    = Some (w2, ilu1).
Proof.
  intros Hp1 Hp2 Hrun1. unfold AddFmtCount in *.
  destruct (pass_defined formatSpecifierCount SAliasStrgPrefix SAliasStrgSuffix
              order2 [] ilu) as [[w2 ilu2] Hrun2].
  { intros i x Hx.
    eapply (pass_visits_defined order1 [] ilu w1 ilu1); [|done| |done].
    - by eapply keys_NoDup.
    - by eapply keys_elem. }
  exists w2. rewrite Hrun2. do 2 f_equal. apply map_eq. intros i.
  rewrite (pass_lookup _ _ _ order2 [] ilu w2 ilu2 (keys_NoDup ilu order2 Hp2) Hrun2 i).
  rewrite (pass_lookup _ _ _ order1 [] ilu w1 ilu1 (keys_NoDup ilu order1 Hp1) Hrun1 i).
  destruct (ilu !! i) as [x|] eqn:Hx.
  - rewrite !decide_True by (by eapply keys_elem). done.
  - by repeat case_decide.
Qed.

(** *** The entries that are left alone *)

Lemma body_left_alone x :
  ContainsAny (Type_ x) "S" = true \/ ContainsAny (Type_ x) "N" = true \/
  ContainsAny (Type_ x) "B" = true \/ ContainsAny (Type_ x) "F" = true \/
  ContainsAny (Type_ x) "_" = true \/
  formatSpecifierCount (Strg x) <= 0 \/ 12 < formatSpecifierCount (Strg x) ->
  settled x.
Proof.
  intros Hc. unfold Reconciler.settled, AddFmtCount_body.
  set (n := formatSpecifierCount (Strg x)) in *.
  destruct ((0 <=? n) && (n <=? 12)) eqn:Hrange; simpl; [|eauto].
  apply andb_true_iff in Hrange as [H0%Z.leb_le H12%Z.leb_le].
  destruct (ContainsAny (Type_ x) "S") eqn:HS; simpl.
  { destruct (negb _); [destruct (_ && _)|]; eauto. }
  destruct (ContainsAny (Type_ x) "N") eqn:HN; simpl.
  { destruct (negb _); [destruct (_ && _)|]; eauto. }
  destruct (ContainsAny (Type_ x) "B") eqn:HB; simpl.
  { destruct (negb _); [destruct (_ && _)|]; eauto. }
  destruct (ContainsAny (Type_ x) "F") eqn:HF.
  { destruct (negb _); eauto. }
  destruct (2 <? length (Split (Type_ x) "_"))%nat eqn:H2; [eauto|].
  destruct (length (Split (Type_ x) "_") =? 2)%nat eqn:H2'.
  { destruct (Atoi _) as [i|]; [|eauto]. destruct ((i <? 0) || (12 <? i)); eauto. }
  destruct (Z.eqb_spec n 0) as [?|Hn0]; [eauto|].
  exfalso. destruct Hc as [?|[?|[?|[?|[Hu|[?|?]]]]]]; try congruence; try lia.
  rewrite ContainsAny_byte in Hu. apply Split_separator in Hu.
  apply Nat.ltb_ge in H2. apply Nat.eqb_neq in H2'. lia.
Qed.

(** X8.  An entry whose type holds one of the letters S, N, B, F or an
    underscore, or whose format string has no specifier, or more than twelve,
    is the same after [AddFmtCount]. *)
Theorem AddFmtCount_left_alone order (ilu : TriceIDLookUp) w ilu' i x :
  order ≡ₚ keys ilu ->
  AddFmtCount formatSpecifierCount SAliasStrgPrefix SAliasStrgSuffix order ilu
  = Some (w, ilu') ->
  ilu !! i = Some x ->
  ContainsAny (Type_ x) "S" = true \/ ContainsAny (Type_ x) "N" = true \/
  ContainsAny (Type_ x) "B" = true \/ ContainsAny (Type_ x) "F" = true \/
  ContainsAny (Type_ x) "_" = true \/
  formatSpecifierCount (Strg x) <= 0 \/ 12 < formatSpecifierCount (Strg x) ->
  ilu' !! i = Some x.
Proof.
  intros Hp Hrun Hx Hc. destruct (body_left_alone x Hc) as [r Hr].
  rewrite (pass_lookup _ _ _ order [] ilu w ilu' (keys_NoDup ilu order Hp) Hrun i).
  rewrite decide_True by (by eapply keys_elem). rewrite Hx. simpl.
  unfold Reconciler.rewritten. by rewrite Hr.
Qed.

(** *** What the loop stores is well formed *)

(** X9.  The type that [AddFmtCount] stores for a plain name (no underscore,
    no [%], none of S, N, B, F) with [n] specifiers, [1 <= n <= 12], is one
    the next pass accepts as it is: the name, one underscore and a count
    that [Atoi] reads back within [[0,12]]; the body writes no line for it
    and stores nothing. *)
Theorem rewritten_accepted x :
  ContainsAny (Type_ x) "S" = false -> ContainsAny (Type_ x) "N" = false ->
  ContainsAny (Type_ x) "B" = false -> ContainsAny (Type_ x) "F" = false ->
  ContainsAny (Type_ x) "_" = false -> ContainsAny (Type_ x) "%" = false ->
  1 <= formatSpecifierCount (Strg x) <= 12 ->
  exists y, rewritten x = Some y /\
            Split (Type_ y) "_" = [Type_ x; itoa (formatSpecifierCount (Strg x))] /\
            body y = Some ([], None).
Proof.
  intros HS HN HB HF Hu Hp Hn.
  set (n := formatSpecifierCount (Strg x)) in *.
  destruct (body_plain formatSpecifierCount SAliasStrgPrefix SAliasStrgSuffix
              x HS HN HB HF Hu Hp) as [_ Hstore].
  specialize (Hstore Hn). fold n in Hstore.
  destruct (itoa_small n Hn) as (HiS & HiN & HiB & HiF & Hiu & Hatoi).
  exists {| Type_ := Type_ x +:+ "_" +:+ itoa n; Strg := Strg x |}.
  unfold Reconciler.rewritten. rewrite Hstore. split; [done|].
  rewrite ContainsAny_byte in Hu.
  assert (Hsplit : Split (Type_ x +:+ "_" +:+ itoa n) "_" = [Type_ x; itoa n]).
  { change (Type_ x +:+ "_" +:+ itoa n) with (Type_ x +:+ String "_" (itoa n)).
    by rewrite (Split_first _ _ _ Hu), (Split_whole _ _ Hiu). }
  split; [done|].
  unfold AddFmtCount_body. simpl. fold n.
  assert (Hrange : (0 <=? n) && (n <=? 12) = true).
  { apply andb_true_iff. split; apply Z.leb_le; lia. }
  rewrite Hrange. simpl.
  change (Type_ x +:+ "_" +:+ itoa n) with (Type_ x +:+ String "_" (itoa n)).
  rewrite !ContainsAny_app.
  change (String "_" (itoa n)) with ("_" +:+ itoa n).
  rewrite !ContainsAny_app, HS, HN, HB, HF, HiS, HiN, HiB, HiF. simpl.
  change (Type_ x +:+ "_" +:+ itoa n) with (Type_ x +:+ String "_" (itoa n)) in Hsplit.
  change ("_" +:+ itoa n) with (String "_" (itoa n)).
  rewrite Hsplit. simpl. rewrite Hatoi.
  destruct (Z.ltb_spec n 0); [lia|]. destruct (Z.ltb_spec 12 n); [lia|]. done.
Qed.

End Pass.

Lemma AddFmtCount_keeps_keys_and_Strg_witness :
  dom ({[10001 := {| Type_ := "TRICE16_2"; Strg := "hi %03u, %5x" |}]}
         : TriceIDLookUp)
  = dom ({[10001 := trice16]} : TriceIDLookUp) /\
  forall i x',
    ({[10001 := {| Type_ := "TRICE16_2"; Strg := "hi %03u, %5x" |}]}
       : TriceIDLookUp) !! i = Some x' ->
    exists x, ({[10001 := trice16]} : TriceIDLookUp) !! i = Some x /\
              Strg x' = Strg x.
Proof.
  apply (AddFmtCount_keeps_keys_and_Strg countSpecifiers "" "" [10001]
           {[10001 := trice16]} []).
  vm_compute. reflexivity.
Defined.

Lemma AddFmtCount_order_independent_witness :
  exists w2,
    AddFmtCount countSpecifiers "" "" [10; 11; 12] ReverseIndex.twice
    = Some (w2, ReverseIndex.twice).
Proof.
  apply (AddFmtCount_order_independent countSpecifiers "" ""
           (keys ReverseIndex.twice) [10; 11; 12] ReverseIndex.twice []).
  - reflexivity.
  - vm_compute. apply perm_swap.
  - vm_compute. reflexivity.
Defined.

Lemma AddFmtCount_left_alone_witness :
  ({[10001 := {| Type_ := "TRICE_S"; Strg := "%s" |}]} : TriceIDLookUp) !! 10001
  = Some {| Type_ := "TRICE_S"; Strg := "%s" |}.
Proof.
  apply (AddFmtCount_left_alone countSpecifiers "" "" [10001]
           {[10001 := {| Type_ := "TRICE_S"; Strg := "%s" |}]} []
           {[10001 := {| Type_ := "TRICE_S"; Strg := "%s" |}]} 10001
           {| Type_ := "TRICE_S"; Strg := "%s" |}).
  - reflexivity.
  - vm_compute. reflexivity.
  - reflexivity.
  - left. reflexivity.
Defined.

Lemma rewritten_accepted_witness :
  exists y, rewritten countSpecifiers "" "" trice16 = Some y /\
            Split (Type_ y) "_" = [Type_ trice16; itoa (countSpecifiers (Strg trice16))] /\
            AddFmtCount_body countSpecifiers "" "" y = Some ([], None).
Proof.
  apply (rewritten_accepted countSpecifiers "" "" trice16);
    first [reflexivity | vm_compute; split; discriminate].
Defined.

End ReconcilerMore.

(** ** The reverse index *)

Module ReverseIndexSpec.

Import ReverseIndex AllocatorSpec.

(** *** One call of [addID] *)

Lemma idsOf_addID tF' id (flu : triceFmtLookUp) tF :
  idsOf (addID tF' id flu) tF
  = if decide (tF = tF') then idsOf flu tF ++ [id] else idsOf flu tF.
Proof.
  unfold idsOf, addID. case_decide as Heq.
  - subst. by rewrite lookup_insert_eq.
  - by rewrite lookup_insert_ne.
Qed.

Lemma idCount_addID tF id (flu : triceFmtLookUp) :
  idCount (addID tF id flu) = S (idCount flu).
Proof.
  unfold idCount, addID.
  assert (Hcomm : forall (m : triceFmtLookUp) (j1 j2 : TriceFmt)
                         (z1 z2 : list TriceID) (y : nat),
            j1 <> j2 -> m !! j1 = Some z1 -> m !! j2 = Some z2 ->
            (length z1 + (length z2 + y) = length z2 + (length z1 + y))%nat)
    by (intros; lia).
  destruct (flu !! tF) as [ids|] eqn:Hids; simpl.
  - rewrite <- insert_delete_eq.
    rewrite map_fold_insert_L; [|by apply Hcomm | apply lookup_delete_eq].
    rewrite (map_fold_delete_L _ _ tF ids flu); [|by apply Hcomm | done].
    rewrite length_app. simpl. lia.
  - rewrite map_fold_insert_L; [done | by apply Hcomm | done].
Qed.

Lemma addID_nonempty tF' id (flu : triceFmtLookUp) :
  (forall tF ids, flu !! tF = Some ids -> ids <> []) ->
  forall tF ids, addID tF' id flu !! tF = Some ids -> ids <> [].
Proof.
  intros Hne tF ids. unfold addID. rewrite lookup_insert. case_decide.
  - intros [= <-]. by destruct (default [] (flu !! tF')).
  - apply Hne.
Qed.

(** *** The loop *)

Section Loop.

Variable ilu : TriceIDLookUp.

(** The IDs among [order] that bear [tF], in the order of [order]. *)
#[local] Abbreviation bearing tF order :=
  (filter (fun id => ilu !! id = Some tF) order).

Lemma idsOf_range order : forall (flu : triceFmtLookUp) tF,
  idsOf (reverseS_range order ilu flu) tF = idsOf flu tF ++ bearing tF order.
Proof.
  induction order as [|id order IH]; intros flu tF; simpl.
  - by rewrite app_nil_r.
  - rewrite filter_cons. destruct (ilu !! id) as [tF'|] eqn:Hid.
    + rewrite IH, idsOf_addID.
      destruct (decide (tF = tF')) as [->|Hne].
      * rewrite decide_True by done. by rewrite <- app_assoc.
      * rewrite decide_False by congruence. done.
    + rewrite decide_False by done. apply IH.
Qed.

Lemma range_nonempty order : forall flu : triceFmtLookUp,
  (forall tF ids, flu !! tF = Some ids -> ids <> []) ->
  forall tF ids, reverseS_range order ilu flu !! tF = Some ids -> ids <> [].
Proof.
  induction order as [|id order IH]; intros flu Hne; simpl; [done|].
  destruct (ilu !! id) as [tF'|]; [|by apply IH].
  apply IH. by apply addID_nonempty.
Qed.

Lemma idCount_range order : forall flu : triceFmtLookUp,
  idCount (reverseS_range order ilu flu)
  = (idCount flu + length (filter (fun id => is_Some (ilu !! id)) order))%nat.
Proof.
  induction order as [|id order IH]; intros flu; simpl; [lia|].
  rewrite filter_cons. destruct (ilu !! id) as [tF'|] eqn:Hid.
  - rewrite IH, idCount_addID. rewrite decide_True by eauto. simpl. lia.
  - rewrite IH. rewrite decide_False; [done|]. by intros [? ?].
Qed.

(** X11.  The slice that [reverseS] holds for a format lists the visited
    IDs that bear this format, each as often as it was visited and in the
    order of the visits; a format that no visited ID bears has no slice, and
    no slice is empty. *)
Theorem reverseS_encounter_order order tF :
  idsOf (reverseS order ilu) tF = bearing tF order /\
  (reverseS order ilu !! tF = None <-> bearing tF order = []).
Proof.
  assert (Hids : idsOf (reverseS order ilu) tF = bearing tF order).
  { unfold reverseS. rewrite idsOf_range. unfold idsOf. by rewrite lookup_empty. }
  split; [done|]. rewrite <- Hids. unfold idsOf.
  destruct (reverseS order ilu !! tF) as [ids|] eqn:Hl; simpl; [|done].
  assert (ids <> []).
  { eapply (range_nonempty order ∅); [|exact Hl].
    intros ? ?. by rewrite lookup_empty. }
  split; [discriminate | done].
Qed.

(** X10.  After a loop over all the keys, an ID is in the slice of a format
    exactly when the catalog binds the ID to this format, and no slice holds
    an ID twice. *)
Theorem reverseS_member order tF id :
  order ≡ₚ keys ilu ->
  (id ∈ idsOf (reverseS order ilu) tF <-> ilu !! id = Some tF) /\
  NoDup (idsOf (reverseS order ilu) tF).
Proof.
  intros Hp.
  assert (Hids : idsOf (reverseS order ilu) tF = bearing tF order).
  { unfold reverseS. rewrite idsOf_range. unfold idsOf. by rewrite lookup_empty. }
  rewrite Hids. split.
  - rewrite list_elem_of_filter, Hp, elem_of_keys. split; [by intros [? _]|].
    intros Hid. split; [done | eauto].
  - apply NoDup_filter. rewrite Hp. apply NoDup_fst_map_to_list.
Qed.

(** X12.  After a loop over all the keys the slices of the reverse index
    hold as many IDs, all together, as the catalog has entries. *)
Theorem reverseS_count order :
  order ≡ₚ keys ilu -> idCount (reverseS order ilu) = size ilu.
Proof.
  intros Hp. unfold reverseS. rewrite idCount_range.
  assert (Hall : filter (fun id => is_Some (ilu !! id)) order = order).
  { assert (Hin : forall id, id ∈ order -> is_Some (ilu !! id)).
    { intros id Hid. apply elem_of_keys. by rewrite <- Hp. }
    clear Hp. induction order as [|id order IH]; [done|].
    rewrite filter_cons_True by (apply Hin; left).
    f_equal. apply IH. intros id' Hid'. apply Hin. by right. }
  rewrite Hall, Hp. unfold idCount, keys.
  rewrite map_fold_empty, length_fmap, length_map_to_list. done.
Qed.

End Loop.

Lemma reverseS_member_witness :
  (12 ∈ idsOf (reverseS (keys twice) twice) {| Type_ := "TRICE"; Strg := "a" |}
   <-> twice !! 12 = Some {| Type_ := "TRICE"; Strg := "a" |}) /\
  NoDup (idsOf (reverseS (keys twice) twice) {| Type_ := "TRICE"; Strg := "a" |}).
Proof.
  apply (reverseS_member twice (keys twice)). reflexivity.
Defined.

Lemma reverseS_count_witness :
  idCount (reverseS (keys twice) twice) = size twice.
Proof.
  apply (reverseS_count twice (keys twice)). reflexivity.
Defined.

End ReverseIndexSpec.

(** ** More on cached cleaning: the other rows of the decision *)

Module CachedCleanMore.

Import CachedClean CachedCleanSpec.

Section Cleaning.

Context {FS D : Type}.
Variable E : Env.
Variable A : Afero FS.
Variable H : Helpers FS D.

(** The code from [clean:] on, when the cache is in use: the transform, the
    cache update if the accumulator is [nil] after it, and the report. *)
Lemma clean_cached cln path fileInfo (st0 : State FS D) :
  TriceCacheEnabled E = true ->
  let st2 := do_Transform H path fileInfo st0 in
  exists st',
    clean E A H true cln path fileInfo st0 = (st', err (p st')) /\
    calls st' = calls st0 ++ CTransform path ::
                  (if bool_decide (err (p st2) = None)
                   then cacheUpdate E cln path else []) ++ reported (err (p st')).
Proof.
  intros Hen st2. unfold clean. rewrite Hen. cbn [andb negb]. fold st2.
  set (X := if bool_decide (err (p st2) = None)
            then do_Copy H cln path
                   (do_MkdirAll A (filepath_Dir E cln)
                      (Tell "Copy file into the cleaned-cache." st2))
            else st2).
  destruct (OnErrFv_spec X) as (st' & Heq & _ & Hp & Hcalls).
  exists st'. rewrite Heq, Hp. split; [done|]. rewrite Hcalls. unfold X.
  destruct (bool_decide (err (p st2) = None)).
  - rewrite calls_do_Copy, calls_do_MkdirAll. unfold Tell, record, st2. simpl.
    rewrite calls_do_Transform, <- !app_assoc. done.
  - unfold st2. rewrite calls_do_Transform, <- !app_assoc. done.
Qed.

(** X13.  The fast path after an insertion: with the cache in use and no
    error accumulated, if the cleaned twin exists with another modification
    time and the inserted twin has the modification time of the file, then
    the cleaned twin is copied onto the file with [CopyFileWithMTime] and
    that is all: no transform, no [Remove], no cache update; the call returns
    the error of the copy. *)
Theorem inserted_twin_fast_path path fileInfo (st : State FS D)
    ins cln cCache iCache :
  TriceCacheEnabled E = true ->
  is_Some (Stat A (fs st) (cache E)) ->
  err (p st) = None ->
  cacheTwins E path = Some (ins, cln) ->
  Stat A (fs st) cln = Some cCache ->
  ModTime cCache <> ModTime fileInfo ->
  Stat A (fs st) ins = Some iCache ->
  ModTime iCache = ModTime fileInfo ->
  fileExists H (fs st) cln = true ->
  let copied := CopyFileWithMTime H path cln (fs st) in
  exists st',
    triceIDCleaning E A H path fileInfo st = (st', err (p st')) /\
    fs st' = copied.1 /\
    data (p st') = data (p st) /\
    (copied.2 = None <-> err (p st') = None) /\
    calls st' = calls st ++
                [CTell "trice c was executed before, copy cCache into file";
                 CCopy path cln] ++ reported (err (p st')).
Proof.
  intros Hen Hc He Htw Hcl Hnc Hin Hmt Hex copied. unfold triceIDCleaning.
  rewrite (cacheCheck_twins E A H path fileInfo st ins cln Hen Hc He Htw).
  unfold twinCheck, Time_Equal. rewrite Hcl, Hin, Hmt, Z.eqb_refl, Hex.
  destruct (Z.eqb_spec (ModTime fileInfo) (ModTime cCache)); [congruence|].
  cbn [andb].
  set (X := do_Copy H path cln
              (Tell "trice c was executed before, copy cCache into file" st)).
  destruct (OnErrFv_spec X) as (st' & Heq & Hfs & Hp & Hcalls).
  exists st'. rewrite Heq, Hp, Hfs, Hcalls. split; [done|].
  unfold X, do_Copy, Tell, record. simpl. fold copied.
  destruct copied as [f' [e|]]; simpl; rewrite He; simpl;
    rewrite <- ?app_assoc; repeat split; try done; discriminate.
Qed.

(** X14.  A missing twin: with the cache in use and no error accumulated,
    if the cleaned twin is missing, or exists with another modification time
    while the inserted twin is missing, then the call writes one line, calls
    the transform and, if the accumulator is [nil] after it, updates the
    cleaned twin; it calls [Remove] on nothing. *)
Theorem missing_twin_transforms path fileInfo (st : State FS D) ins cln :
  TriceCacheEnabled E = true ->
  is_Some (Stat A (fs st) (cache E)) ->
  err (p st) = None ->
  cacheTwins E path = Some (ins, cln) ->
  Stat A (fs st) cln = None \/
  (exists cCache, Stat A (fs st) cln = Some cCache /\
                  ModTime cCache <> ModTime fileInfo /\
                  Stat A (fs st) ins = None) ->
  exists line st',
    (line = "no cleaned Cache file" \/ line = "no inserted Cache file") /\
    triceIDCleaning E A H path fileInfo st = (st', err (p st')) /\
    calls st' =
      calls st ++ CTell line :: CTransform path ::
        (if bool_decide (err (p (do_Transform H path fileInfo (Tell line st))) = None)
         then cacheUpdate E cln path else []) ++ reported (err (p st')).
Proof.
  intros Hen Hc He Htw Hrow. unfold triceIDCleaning.
  rewrite (cacheCheck_twins E A H path fileInfo st ins cln Hen Hc He Htw).
  unfold twinCheck, Time_Equal.
  destruct Hrow as [Hcl|(cCache & Hcl & Hnc & Hin)]; rewrite Hcl.
  - destruct (clean_cached cln path fileInfo (Tell "no cleaned Cache file" st) Hen)
      as (st' & Heq & Hcalls).
    exists "no cleaned Cache file", st'. split; [by left|]. split; [done|].
    rewrite Hcalls. unfold Tell at 1, record. simpl. by rewrite <- app_assoc.
  - destruct (Z.eqb_spec (ModTime fileInfo) (ModTime cCache)); [congruence|].
    rewrite Hin.
    destruct (clean_cached cln path fileInfo (Tell "no inserted Cache file" st) Hen)
      as (st' & Heq & Hcalls).
    exists "no inserted Cache file", st'. split; [by right|]. split; [done|].
    rewrite Hcalls. unfold Tell at 1, record. simpl. by rewrite <- app_assoc.
Qed.

(** X15.  Without a usable cache (the flag is off, or it is on and the cache
    directory is missing) a call that starts without accumulated error is
    the transform alone: the filesystem and the run's data are as the
    transform left them, there is no cache update, and with the flag on the
    warning about the missing directory is written. *)
Theorem no_cache_transforms path fileInfo (st : State FS D) :
  err (p st) = None ->
  TriceCacheEnabled E = false \/ Stat A (fs st) (cache E) = None ->
  let st2 := do_Transform H path fileInfo st in
  exists st',
    triceIDCleaning E A H path fileInfo st = (st', err (p st2)) /\
    fs st' = fs st2 /\ p st' = p st2 /\
    calls st' = calls st ++ CTransform path ::
                  (if TriceCacheEnabled E then [CWarnNoCache (cache E)] else [])
                  ++ reported (err (p st2)).
Proof.
  intros He Hno st2.
  assert (Hcc : cacheCheck E A H path fileInfo st = GotoClean false "" st).
  { unfold cacheCheck. rewrite He. destruct Hno as [->| ->]; [done|].
    by destruct (TriceCacheEnabled E). }
  unfold triceIDCleaning. rewrite Hcc. unfold clean. fold st2.
  rewrite andb_false_r. cbn [andb negb]. rewrite andb_true_r.
  set (Y := if TriceCacheEnabled E
            then record (CWarnNoCache (cache E)) st2 else st2).
  assert (HY : fs Y = fs st2 /\ p Y = p st2 /\
               calls Y = calls st ++ CTransform path ::
                 (if TriceCacheEnabled E then [CWarnNoCache (cache E)] else [])).
  { unfold Y, st2. destruct (TriceCacheEnabled E); simpl;
      rewrite calls_do_Transform, <- ?app_assoc; done. }
  destruct HY as (Hfs & Hp & Hcalls).
  destruct (OnErrFv_spec Y) as (st' & Heq & Hfs' & Hp' & Hcalls').
  exists st'. rewrite Heq, Hp. split; [done|]. split; [congruence|].
  split; [congruence|]. rewrite Hcalls', Hcalls, Hp, <- app_assoc. done.
Qed.

(** X17.  On Windows, for a path with a drive letter, a failure of
    [os.UserHomeDir] ends the call with that error, but the error is not
    joined into the accumulator: the state is as before, and the run goes on
    with the next file. *)
Theorem home_failure_not_joined path fileInfo (st : State FS D)
    fullPath before after home e files :
  err (p st) = None ->
  TriceCacheEnabled E = true ->
  is_Some (Stat A (fs st) (cache E)) ->
  filepath_Abs E path = (fullPath, None) ->
  Cut fullPath ":" = (before, after, true) ->
  GOOS E = "windows" ->
  String.length before = 1%nat ->
  os_UserHomeDir E = (home, Some e) ->
  triceIDCleaning E A H path fileInfo st = (st, Some e) /\
  cleanFiles E A H ((path, fileInfo) :: files) st = cleanFiles E A H files st.
Proof.
  intros He Hen [c Hc] Habs Hcut Hos Hlen Hhome.
  assert (Hrun : triceIDCleaning E A H path fileInfo st = (st, Some e)).
  { unfold triceIDCleaning, cacheCheck.
    rewrite He, Hen, Hc, Habs, Hcut, Hos, Hlen, Hhome. done. }
  split; [done|]. simpl. by rewrite Hrun.
Qed.

(** *** [Remove] is called on stale twins only *)

Lemma notRemove_tail (l rest : list Call) x :
  Forall notRemove rest -> CRemove x ∈ l ++ rest -> CRemove x ∈ l.
Proof.
  intros Hrest [?|Hin]%elem_of_app; [done|].
  rewrite Forall_forall in Hrest. by apply Hrest in Hin.
Qed.

Lemma notRemove_reported e : Forall notRemove (reported e).
Proof. destruct e; by repeat constructor. Qed.

(** The code from [clean:] on calls no [Remove]. *)
Lemma clean_no_Remove cacheExists cln path fileInfo (st0 : State FS D) :
  exists rest,
    calls (clean E A H cacheExists cln path fileInfo st0).1 = calls st0 ++ rest /\
    Forall notRemove rest.
Proof.
  unfold clean.
  set (st2 := do_Transform H path fileInfo st0).
  set (X := if TriceCacheEnabled E && cacheExists && bool_decide (err (p st2) = None)
            then do_Copy H cln path
                   (do_MkdirAll A (filepath_Dir E cln)
                      (Tell "Copy file into the cleaned-cache." st2))
            else st2).
  set (Y := if TriceCacheEnabled E && negb cacheExists
            then record (CWarnNoCache (cache E)) X else X).
  assert (HX : exists rest, calls X = calls st0 ++ rest /\ Forall notRemove rest).
  { unfold X.
    destruct (TriceCacheEnabled E && cacheExists && bool_decide (err (p st2) = None)).
    - rewrite calls_do_Copy, calls_do_MkdirAll. unfold Tell, record, st2. simpl.
      rewrite calls_do_Transform, <- !app_assoc.
      eexists. split; [done|]. by repeat constructor.
    - unfold st2. rewrite calls_do_Transform.
      eexists. split; [done|]. by repeat constructor. }
  destruct HX as (rest & HX & Hrest).
  assert (HY : exists rest, calls Y = calls st0 ++ rest /\ Forall notRemove rest).
  { unfold Y. destruct (TriceCacheEnabled E && negb cacheExists); [|eauto].
    simpl. rewrite HX, <- app_assoc. eexists. split; [done|].
    apply Forall_app. split; [done | by repeat constructor]. }
  destruct HY as (rest' & HY & Hrest').
  destruct (OnErrFv_spec Y) as (st' & Heq & _ & _ & Hcalls).
  rewrite Heq. simpl. rewrite Hcalls, HY, <- app_assoc.
  eexists. split; [done|]. apply Forall_app. split; [done|].
  apply notRemove_reported.
Qed.

(** The decision on the twins, followed to the end of the call. *)
Lemma twinCheck_Remove ins cln path fileInfo (st0 : State FS D) x :
  CRemove x ∈ calls (match twinCheck A H ins cln path fileInfo st0 with
                    | Return r => r
                    | GotoClean cacheExists c st1 =>
                        clean E A H cacheExists c path fileInfo st1
                    end).1 ->
  CRemove x ∈ calls st0 \/
  exists cCache iCache,
    Stat A (fs st0) cln = Some cCache /\ Stat A (fs st0) ins = Some iCache /\
    ModTime cCache <> ModTime fileInfo /\
    (ModTime iCache <> ModTime fileInfo \/ fileExists H (fs st0) cln = false) /\
    (x = ins \/ x = cln).
Proof.
  unfold twinCheck, Time_Equal.
  assert (Hclean : forall line, CRemove x ∈
            calls (clean E A H true cln path fileInfo (Tell line st0)).1 ->
            CRemove x ∈ calls st0).
  { intros line.
    destruct (clean_no_Remove true cln path fileInfo (Tell line st0))
      as (rest & -> & Hrest).
    intros Hin%(notRemove_tail _ _ _ Hrest). unfold Tell, record in Hin. simpl in Hin.
    apply elem_of_app in Hin as [?|Hin]; [done|].
    apply list_elem_of_singleton in Hin. discriminate. }
  destruct (Stat A (fs st0) cln) as [cCache|] eqn:Hcl; [|left; by eapply Hclean].
  destruct (Z.eqb_spec (ModTime fileInfo) (ModTime cCache)) as [|Hnc].
  { destruct (OnErrFv_spec (Tell "trice c was executed before, nothing to do" st0))
      as (st' & Heq & _ & _ & Hc). rewrite Heq. simpl. rewrite Hc.
    intros Hin%(notRemove_tail _ _ _ (notRemove_reported _)).
    apply elem_of_app in Hin as [?|Hin]; [by left|].
    apply list_elem_of_singleton in Hin. discriminate. }
  destruct (Stat A (fs st0) ins) as [iCache|] eqn:Hin; [|left; by eapply Hclean].
  destruct ((ModTime fileInfo =? ModTime iCache) && fileExists H (fs st0) cln)
    eqn:Hfast.
  { destruct (OnErrFv_spec
                (do_Copy H path cln
                   (Tell "trice c was executed before, copy cCache into file" st0)))
      as (st' & Heq & _ & _ & Hc). rewrite Heq. simpl. rewrite Hc.
    intros Hx%(notRemove_tail _ _ _ (notRemove_reported _)).
    rewrite calls_do_Copy in Hx. unfold Tell, record in Hx. simpl in Hx.
    rewrite <- app_assoc in Hx. left.
    apply elem_of_app in Hx as [?|Hx]; [done|].
    apply elem_of_cons in Hx as [?|Hx]; [discriminate|].
    apply list_elem_of_singleton in Hx. discriminate. }
  destruct (clean_no_Remove true cln path fileInfo
              (do_Remove A cln
                 (do_Remove A ins (Tell "File was edited, invalidate cache" st0))))
    as (rest & -> & Hrest).
  intros Hx%(notRemove_tail _ _ _ Hrest).
  rewrite !calls_do_Remove in Hx. unfold Tell, record in Hx. simpl in Hx.
  rewrite <- !app_assoc in Hx.
  apply elem_of_app in Hx as [?|Hx]; [by left|]. right.
  exists cCache, iCache. split; [done|]. split; [done|].
  split; [congruence|]. split.
  - apply andb_false_iff in Hfast as [Hne|?]; [left | by right].
    apply Z.eqb_neq in Hne. congruence.
  - apply elem_of_cons in Hx as [?|Hx]; [discriminate|].
    apply elem_of_cons in Hx as [[= ->]|Hx]; [by left|].
    apply list_elem_of_singleton in Hx as [= ->]. by right.
Qed.

(** The paths of [twinPaths] are the twins of [cacheTwins] whenever
    [filepath.Abs] succeeds. *)
Lemma twinPaths_cacheTwins path tw :
  twinPaths E path = Some tw ->
  (filepath_Abs E path).2 = None ->
  cacheTwins E path = Some tw.
Proof.
  unfold twinPaths, cacheTwins.
  destruct (filepath_Abs E path) as [fullPath [e|]]; simpl; [discriminate|].
  by intros -> _.
Qed.

(** A call that starts without an accumulated error, with the cache enabled
    and present, joins the error of [filepath.Abs] and decides on the two
    paths of [twinPaths]; without them it returns the error of
    [os.UserHomeDir]. *)
Lemma cacheCheck_twinPaths path fileInfo (st : State FS D) :
  TriceCacheEnabled E = true ->
  is_Some (Stat A (fs st) (cache E)) ->
  err (p st) = None ->
  cacheCheck E A H path fileInfo st =
  match twinPaths E path with
  | Some (ins, cln) =>
      twinCheck A H ins cln path fileInfo (join (filepath_Abs E path).2 st)
  | None => Return (join (filepath_Abs E path).2 st, (os_UserHomeDir E).2)
  end.
Proof.
  intros Hen [c Hc] Herr. unfold cacheCheck, twinPaths.
  rewrite Herr, Hen, Hc.
  destruct (filepath_Abs E path) as [fullPath e].
  destruct (Cut fullPath ":") as [[before after] found].
  destruct (found && String.eqb (GOOS E) "windows" && (String.length before =? 1)%nat).
  - by destruct (os_UserHomeDir E) as [home [e1|]].
  - done.
Qed.

(** X16.  [triceIDCleaning] calls [Remove] on nothing but the two cache twins
    of the file it is called for, and only when that file was edited:
    whenever a call removes a path, no error was accumulated before, the
    cache is enabled and present, the two paths the code computes for the
    file (the twins of [cacheTwins] when [filepath.Abs] succeeds) both exist,
    the cleaned one has another modification time than the file, and the
    inserted one has another one too or the cleaned one is reported missing;
    the path removed is one of these two. *)
Theorem removes_only_stale_twins path fileInfo (st : State FS D) x :
  CRemove x ∈ calls (triceIDCleaning E A H path fileInfo st).1 ->
  CRemove x ∈ calls st \/
  exists ins cln cCache iCache,
    twinPaths E path = Some (ins, cln) /\
    ((filepath_Abs E path).2 = None -> cacheTwins E path = Some (ins, cln)) /\
    err (p st) = None /\ TriceCacheEnabled E = true /\
    is_Some (Stat A (fs st) (cache E)) /\
    Stat A (fs st) cln = Some cCache /\ Stat A (fs st) ins = Some iCache /\
    ModTime cCache <> ModTime fileInfo /\
    (ModTime iCache <> ModTime fileInfo \/ fileExists H (fs st) cln = false) /\
    (x = ins \/ x = cln).
Proof.
  destruct (err (p st)) as [e0|] eqn:He.
  { rewrite (triceIDCleaning_skips E A H path fileInfo st e0 He). by left. }
  assert (Hnone : cacheCheck E A H path fileInfo st = GotoClean false "" st ->
                  CRemove x ∈ calls (triceIDCleaning E A H path fileInfo st).1 ->
                  CRemove x ∈ calls st).
  { unfold triceIDCleaning. intros ->.
    destruct (clean_no_Remove false "" path fileInfo st) as (rest & -> & Hrest).
    by intros Hin%(notRemove_tail _ _ _ Hrest). }
  destruct (TriceCacheEnabled E) eqn:Hen.
  2: { intros Hx. left. apply Hnone; [|done].
       unfold cacheCheck. by rewrite He, Hen. }
  destruct (Stat A (fs st) (cache E)) as [c|] eqn:Hc.
  2: { intros Hx. left. apply Hnone; [|done].
       unfold cacheCheck. by rewrite He, Hen, Hc. }
  unfold triceIDCleaning.
  rewrite (cacheCheck_twinPaths path fileInfo st Hen (ltac:(by rewrite Hc)) He).
  destruct (twinPaths E path) as [[ins cln]|] eqn:Htp.
  - intros Hx. apply twinCheck_Remove in Hx as [Hx|Hx].
    + left. by rewrite calls_join in Hx.
    + right. destruct Hx as (cC & iC & Hcl & Hin & Hnc & Hni & Hx).
      rewrite fs_join in Hcl, Hin, Hni.
      exists ins, cln, cC, iC. split; [done|]. split.
      { by apply twinPaths_cacheTwins. }
      repeat split; eauto.
  - simpl. rewrite calls_join. by left.
Qed.

(** *** Cleaning twice *)

(** X18.  Cleaning a file twice: when the first call finds no cleaned twin
    and ends without error, then, with a copy that keeps the modification
    time and leaves its source alone, and the cache directory still there, a
    second call for the file as it is found now calls no transform: it writes
    the line "trice c was executed before, nothing to do" and changes
    nothing. *)
Theorem clean_twice path fileInfo fileInfo' (st : State FS D) ins cln :
  preservesMTime A H -> keepsSource A H ->
  TriceCacheEnabled E = true ->
  is_Some (Stat A (fs st) (cache E)) ->
  err (p st) = None ->
  cacheTwins E path = Some (ins, cln) ->
  Stat A (fs st) cln = None ->
  let st1 := (triceIDCleaning E A H path fileInfo st).1 in
  err (p st1) = None ->
  is_Some (Stat A (fs st1) (cache E)) ->
  Stat A (fs st1) path = Some fileInfo' ->
  exists st2,
    triceIDCleaning E A H path fileInfo' st1 = (st2, None) /\
    fs st2 = fs st1 /\ p st2 = p st1 /\
    calls st2 = calls st1 ++ [CTell "trice c was executed before, nothing to do"].
Proof.
  intros Hpres Hkeep Hen Hc He Htw Hcl st1 He1 Hc1 Hfile.
  assert (Hst1 : st1 = (clean E A H true cln path fileInfo
                          (Tell "no cleaned Cache file" st)).1).
  { unfold st1, triceIDCleaning.
    rewrite (cacheCheck_twins E A H path fileInfo st ins cln Hen Hc He Htw).
    unfold twinCheck. by rewrite Hcl. }
  assert (Htwin : exists cCache, Stat A (fs st1) cln = Some cCache /\
                                 ModTime cCache = ModTime fileInfo').
  { revert He1 Hfile. rewrite Hst1. unfold clean. rewrite Hen. cbn [andb negb].
    set (stT := do_Transform H path fileInfo (Tell "no cleaned Cache file" st)).
    set (X := if bool_decide (err (p stT) = None)
              then do_Copy H cln path
                     (do_MkdirAll A (filepath_Dir E cln)
                        (Tell "Copy file into the cleaned-cache." stT))
              else stT).
    destruct (OnErrFv_spec X) as (st' & Heq & Hfs & Hp & _).
    rewrite Heq. simpl. rewrite Hfs, Hp. unfold X.
    destruct (bool_decide (err (p stT) = None)) eqn:HT.
    - unfold do_Copy.
      set (stM := do_MkdirAll A (filepath_Dir E cln)
                    (Tell "Copy file into the cleaned-cache." stT)).
      destruct (CopyFileWithMTime H cln path (fs stM)) as [f3 e3] eqn:Hcopy.
      rewrite fs_join, err_join. simpl.
      destruct e3 as [e3|].
      { simpl. destruct (err (p stM)); discriminate. }
      intros _ Hfile. pose proof (Hpres _ _ _ _ Hcopy) as Hmt.
      rewrite <- (Hkeep _ _ _ _ Hcopy), Hfile in Hmt. simpl in Hmt.
      destruct (Stat A f3 cln) as [cCache|]; [|discriminate].
      injection Hmt as Hmt. eauto.
    - apply bool_decide_eq_false in HT. intros HeT. contradiction. }
  destruct Htwin as (cCache & Hcl1 & Hmt).
  unfold triceIDCleaning.
  rewrite (cacheCheck_twins E A H path fileInfo' st1 ins cln Hen Hc1 He1 Htw).
  unfold twinCheck, Time_Equal. rewrite Hcl1, Hmt, Z.eqb_refl.
  unfold OnErrFv, Tell, record. simpl. rewrite He1. eauto.
Qed.

End Cleaning.

(** *** On the in-memory filesystem *)

Import MemFs.

Lemma inserted_twin_fast_path_witness :
  let copied := CopyFileWithMTime (memHelpers []) "/src/a.c"
                  "/home/u/.trice/cache/cleaned/src/a.c" (fs (start inserted)) in
  exists st',
    triceIDCleaning memEnv memAfero (memHelpers []) "/src/a.c" at9 (start inserted)
      = (st', err (p st')) /\
    fs st' = copied.1 /\
    data (p st') = data (p (start inserted)) /\
    (copied.2 = None <-> err (p st') = None) /\
    calls st' = calls (start inserted) ++
                [CTell "trice c was executed before, copy cCache into file";
                 CCopy "/src/a.c" "/home/u/.trice/cache/cleaned/src/a.c"]
                ++ reported (err (p st')).
Proof.
  apply (inserted_twin_fast_path memEnv memAfero (memHelpers []) "/src/a.c" at9
           (start inserted) "/home/u/.trice/cache/inserted/src/a.c"
           "/home/u/.trice/cache/cleaned/src/a.c"
           {| ModTime := 7 |} {| ModTime := 9 |}).
  - reflexivity.
  - vm_compute. eauto.
  - reflexivity.
  - vm_compute. reflexivity.
  - vm_compute. reflexivity.
  - simpl. lia.
  - vm_compute. reflexivity.
  - reflexivity.
  - vm_compute. reflexivity.
Defined.

Lemma missing_twin_transforms_witness :
  exists line st',
    (line = "no cleaned Cache file" \/ line = "no inserted Cache file") /\
    triceIDCleaning memEnv memAfero (memHelpers []) "/src/a.c" at9 (start tree)
      = (st', err (p st')) /\
    calls st' =
      calls (start tree) ++ CTell line :: CTransform "/src/a.c" ::
        (if bool_decide
              (err (p (do_Transform (memHelpers []) "/src/a.c" at9
                         (Tell line (start tree)))) = None)
         then cacheUpdate memEnv "/home/u/.trice/cache/cleaned/src/a.c" "/src/a.c"
         else []) ++ reported (err (p st')).
Proof.
  apply (missing_twin_transforms memEnv memAfero (memHelpers []) "/src/a.c" at9
           (start tree) "/home/u/.trice/cache/inserted/src/a.c"
           "/home/u/.trice/cache/cleaned/src/a.c").
  - reflexivity.
  - vm_compute. eauto.
  - reflexivity.
  - vm_compute. reflexivity.
  - left. vm_compute. reflexivity.
Defined.

Lemma no_cache_transforms_witness :
  let st2 := do_Transform (memHelpers []) "/src/a.c" at9 (start tree) in
  exists st',
    triceIDCleaning offEnv memAfero (memHelpers []) "/src/a.c" at9 (start tree)
      = (st', err (p st2)) /\
    fs st' = fs st2 /\ p st' = p st2 /\
    calls st' = calls (start tree) ++ CTransform "/src/a.c" ::
                  (if TriceCacheEnabled offEnv
                   then [CWarnNoCache (cache offEnv)] else [])
                  ++ reported (err (p st2)).
Proof.
  apply (no_cache_transforms offEnv memAfero (memHelpers []) "/src/a.c" at9
           (start tree)).
  - reflexivity.
  - left. reflexivity.
Defined.

Lemma home_failure_not_joined_witness :
  triceIDCleaning winEnv memAfero (memHelpers []) "c:/src/a.c" at9 (start winTree)
  = (start winTree, Some (Err ["%userprofile% is not defined"])) /\
  cleanFiles winEnv memAfero (memHelpers []) [("c:/src/a.c", at9)] (start winTree)
  = cleanFiles winEnv memAfero (memHelpers []) [] (start winTree).
Proof.
  apply (home_failure_not_joined winEnv memAfero (memHelpers []) "c:/src/a.c" at9
           (start winTree) "c:/src/a.c" "c" "/src/a.c" ""
           (Err ["%userprofile% is not defined"]) []).
  - reflexivity.
  - reflexivity.
  - vm_compute. eauto.
  - reflexivity.
  - reflexivity.
  - reflexivity.
  - reflexivity.
  - reflexivity.
Defined.

Lemma removes_only_stale_twins_witness :
  CRemove "/home/u/.trice/cache/cleaned/src/a.c" ∈ calls (start edited) \/
  exists ins cln cCache iCache,
    twinPaths memEnv "/src/a.c" = Some (ins, cln) /\
    ((filepath_Abs memEnv "/src/a.c").2 = None ->
     cacheTwins memEnv "/src/a.c" = Some (ins, cln)) /\
    err (p (start edited)) = None /\ TriceCacheEnabled memEnv = true /\
    is_Some (Stat memAfero (fs (start edited)) (cache memEnv)) /\
    Stat memAfero (fs (start edited)) cln = Some cCache /\
    Stat memAfero (fs (start edited)) ins = Some iCache /\
    ModTime cCache <> ModTime at9 /\
    (ModTime iCache <> ModTime at9 \/
     fileExists (memHelpers []) (fs (start edited)) cln = false) /\
    ("/home/u/.trice/cache/cleaned/src/a.c" = ins \/
     "/home/u/.trice/cache/cleaned/src/a.c" = cln).
Proof.
  apply (removes_only_stale_twins memEnv memAfero (memHelpers []) "/src/a.c" at9
           (start edited)).
  assert (Hcalls : calls (triceIDCleaning memEnv memAfero (memHelpers [])
                            "/src/a.c" at9 (start edited)).1
                   = [CTell "File was edited, invalidate cache";
                      CRemove "/home/u/.trice/cache/inserted/src/a.c";
                      CRemove "/home/u/.trice/cache/cleaned/src/a.c";
                      CTransform "/src/a.c";
                      CTell "Copy file into the cleaned-cache.";
                      CMkdirAll "/home/u/.trice/cache/cleaned/src";
                      CCopy "/home/u/.trice/cache/cleaned/src/a.c" "/src/a.c"])
    by (vm_compute; reflexivity).
  rewrite Hcalls. right. right. left.
Defined.

Lemma memCopy_keepsSource broken : keepsSource memAfero (memHelpers broken).
Proof.
  intros dst src f f'. simpl. unfold memCopy, memStat.
  destruct (f !! src) as [x|] eqn:Hx; [|discriminate].
  intros [= <-]. rewrite lookup_insert. case_decide; [subst|]; by rewrite ?Hx.
Qed.

Lemma clean_twice_witness :
  let st1 := (triceIDCleaning memEnv memAfero (memHelpers []) "/src/a.c" at9
                (start tree)).1 in
  exists st2,
    triceIDCleaning memEnv memAfero (memHelpers []) "/src/a.c" {| ModTime := 10 |} st1
      = (st2, None) /\
    fs st2 = fs st1 /\ p st2 = p st1 /\
    calls st2 = calls st1 ++ [CTell "trice c was executed before, nothing to do"].
Proof.
  apply (clean_twice memEnv memAfero (memHelpers []) "/src/a.c" at9
           {| ModTime := 10 |} (start tree)
           "/home/u/.trice/cache/inserted/src/a.c"
           "/home/u/.trice/cache/cleaned/src/a.c").
  - apply memCopy_preservesMTime.
  - apply memCopy_keepsSource.
  - reflexivity.
  - vm_compute. eauto.
  - reflexivity.
  - vm_compute. reflexivity.
  - vm_compute. reflexivity.
  - vm_compute. reflexivity.
  - vm_compute. eauto.
  - vm_compute. reflexivity.
Defined.

End CachedCleanMore.
